(** * todo.py: a shallow embedding and its verified properties

    The program scans directories for annotated comment lines
    ([@TODO], [@FIXME], ...) and prints them grouped by file.  This
    development embeds [src/todo.py] function by function:

    - Python [str] values are lists of Unicode code points;
    - the compiled pattern of [search_file] is a regular expression
      syntax tree run by a backtracking matcher with capture groups;
    - the operating system is an explicit snapshot: a directory tree with
      regular files, directories and their access rights, symbolic links
      and special files, resolved as the kernel resolves paths, with its
      limits on their length; an environment mapping, a working directory
      and a home directory; the frames left before the recursion limit
      and the codec of stdout;
    - exceptions are values of an error monad; output and the work handed
      to the pool are threaded as state. *)

From Stdlib Require Import Strings.String Strings.Ascii.
From Stdlib Require DecimalString.
From stdpp Require Import base tactics option numbers list sorting gmap.

Set Default Proof Using "Type".
Set Warnings "-register-all,-clear-no-such-hyp".
Local Open Scope N_scope.

(** ** Python strings *)

(** A Python [str] is a sequence of code points. *)
Definition char := N.
Definition str := list char.

(** [py "..."] reads a literal as a [str]. *)
Fixpoint py (s : string) : str :=
  match s with
  | EmptyString => []
  | String a t => N_of_ascii a :: py t
  end.
Arguments py s%_string.

Definition LF : char := 10.
Definition SP : char := 32.
Definition AT : char := 64.
Definition HASH : char := 35.
Definition SLASH : char := 47.
Definition ASTERISK : char := 42.
Definition COLON : char := 58.

(** [Py_UNICODE_ISSPACE]: the class behind [\s] in a [str] pattern and
    behind [str.strip()]. *)
Definition isspace (c : char) : bool :=
  ((9 <=? c) && (c <=? 13)) || ((28 <=? c) && (c <=? 32))
  || (c =? 133) || (c =? 160) || (c =? 5760)
  || ((8192 <=? c) && (c <=? 8202))
  || (c =? 8232) || (c =? 8233) || (c =? 8239) || (c =? 8287)
  || (c =? 12288).

(** [[A-Z]] *)
Definition isupper_AZ (c : char) : bool := (65 <=? c) && (c <=? 90).

(** [.] without [re.DOTALL]: anything but a line feed. *)
Definition dot (c : char) : bool := negb (c =? LF).

Fixpoint lstrip (s : str) : str :=
  match s with
  | c :: t => if isspace c then lstrip t else s
  | [] => []
  end.
Definition rstrip (s : str) : str := rev (lstrip (rev s)).
(** [str.strip()] *)
Definition strip (s : str) : str := rstrip (lstrip s).

(** [sep.join(parts)] *)
Fixpoint join (sep : str) (parts : list str) : str :=
  match parts with
  | [] => []
  | [p] => p
  | p :: ps => p ++ sep ++ join sep ps
  end.

(** [s.split(sep)] for a one-character separator: never returns the
    empty list, [''.split(':') = ['']]. *)
Fixpoint split (sep : char) (s : str) : list str :=
  match s with
  | [] => [[]]
  | c :: t =>
      if c =? sep then [] :: split sep t
      else match split sep t with
           | w :: ws => (c :: w) :: ws
           | [] => [[c]]
           end
  end.

(** [format(s, '<w')]: left-justify in a field of minimum width [w]. *)
Definition ljust (w : nat) (s : str) : str :=
  s ++ replicate (w - length s)%nat SP.

(** [str(n)] for a non-negative [int]. *)
Definition str_of_int (n : N) : str :=
  py (DecimalString.NilZero.string_of_uint (N.to_uint n)).

(** ** Regular expressions: the fragment of [re] the program uses *)

Module Re.

(** Repetition is over one-character classes only, which is all the
    pattern needs ([\s+], [[A-Z]+], [.*]) and keeps the matcher
    structurally recursive. *)
Inductive regex :=
| Bol                               (* ^ *)
| Chr (c : char)                    (* a literal character *)
| Cat (r1 r2 : regex)               (* r1 r2 *)
| Alt (r1 r2 : regex)               (* r1|r2, left alternative first *)
| Opt (r : regex)                   (* r?, greedy *)
| Star (p : char → bool)            (* c*, greedy *)
| Plus (p : char → bool)            (* c+, greedy *)
| Group (g : nat) (r : regex).      (* capturing group number g *)

(** Matcher state: offset into the subject, what is left of it, and the
    groups captured so far (latest first). *)
Record mstate := MState {
  pos : nat;
  rest : str;
  caps : list (nat * str)
}.

Definition K := mstate → option mstate.

(** Greedy [c*]: take as many as possible, give back one at a time. *)
Fixpoint star (p : char → bool) (k : K) (n : nat) (cs : list (nat * str))
    (l : str) : option mstate :=
  match l with
  | x :: t =>
      if p x then
        match star p k (S n) cs t with
        | Some r => Some r
        | None => k (MState n l cs)
        end
      else k (MState n l cs)
  | [] => k (MState n l cs)
  end.

(** Backtracking matcher in continuation-passing style: [run r s k] is
    the first way, in the engine's priority order, to match [r] at [s]
    and have the continuation [k] succeed. *)
Fixpoint run (r : regex) (s : mstate) (k : K) : option mstate :=
  match r with
  | Bol => if decide (pos s = 0%nat) then k s else None
  | Chr c =>
      match rest s with
      | x :: t => if x =? c then k (MState (S (pos s)) t (caps s)) else None
      | [] => None
      end
  | Cat r1 r2 => run r1 s (λ s1, run r2 s1 k)
  | Alt r1 r2 =>
      match run r1 s k with
      | Some m => Some m
      | None => run r2 s k
      end
  | Opt r1 =>
      match run r1 s k with
      | Some m => Some m
      | None => k s
      end
  | Star p => star p k (pos s) (caps s) (rest s)
  | Plus p =>
      match rest s with
      | x :: t => if p x then star p k (S (pos s)) (caps s) t else None
      | [] => None
      end
  | Group g r1 =>
      run r1 s (λ s1,
        k (MState (pos s1) (rest s1)
             ((g, take (pos s1 - pos s) (rest s)) :: caps s1)))
  end.

(** [pattern.search(text)]: the leftmost start offset with a match. *)
Fixpoint search_from (r : regex) (n : nat) (l : str) : option mstate :=
  match run r (MState n l []) Some with
  | Some m => Some m
  | None =>
      match l with
      | [] => None
      | _ :: t => search_from r (S n) t
      end
  end.

Definition search (r : regex) (text : str) : option mstate :=
  search_from r 0 text.

(** [m[g]]: [None] when the group took no part in the match. *)
Fixpoint assoc (g : nat) (cs : list (nat * str)) : option str :=
  match cs with
  | [] => None
  | (g', v) :: cs' => if decide (g = g') then Some v else assoc g cs'
  end.
Definition group (m : mstate) (g : nat) : option str := assoc g (caps m).

End Re.

Import Re.

(** ** The pattern of [search_file]

    The source compiles: caret, [\s+], a first group with the three
    alternatives [//], [#] and "optional slash, escaped asterisk", [\s+],
    the group [tag] holding [@[A-Z]+], one space, and the group [text]
    holding [.*].  Groups are numbered 1, 2 and 3 in that order. *)
Definition g_tag : nat := 2.
Definition g_text : nat := 3.

Definition regex : Re.regex :=
  Cat Bol
  (Cat (Plus isspace)
  (Cat (Group 1 (Alt (Cat (Chr SLASH) (Chr SLASH))
                (Alt (Chr HASH)
                     (Cat (Opt (Chr SLASH)) (Chr ASTERISK)))))
  (Cat (Plus isspace)
  (Cat (Group g_tag (Cat (Chr AT) (Plus isupper_AZ)))
  (Cat (Chr SP)
       (Group g_text (Star dot))))))).

(** ** Exceptions *)

(** One constructor for each class of exception the program or its
    outcome tells apart; a class stands for its subclasses too. *)
Inductive exn :=
| OSError               (* FileNotFoundError, PermissionError, ... *)
| UnicodeDecodeError
| ValueError            (* also UnicodeEncodeError *)
| KeyError
| AttributeError
| RecursionError
| SystemExit (code : Z).

Inductive res (A : Type) :=
| Ok (a : A)
| Raise (e : exn).
Arguments Ok {A} a.
Arguments Raise {A} e.

#[global] Instance res_ret : MRet res := λ A a, Ok a.
#[global] Instance res_bind : MBind res := λ A B f m,
  match m with
  | Ok a => f a
  | Raise e => Raise e
  end.

(** A [for] loop whose body may raise, threading the loop state. *)
Fixpoint foldM {A B : Type} (f : B → A → res B) (b : B) (l : list A) : res B :=
  match l with
  | [] => Ok b
  | x :: t => b' ← f b x; foldM f b' t
  end.

(** Running [f] over a list, stopping at the first exception. *)
Fixpoint mapM {A B : Type} (f : A → res B) (l : list A) : res (list B) :=
  match l with
  | [] => Ok []
  | x :: t => y ← f x; ys ← mapM f t; Ok (y :: ys)
  end.

(** ** Paths ([pathlib.PurePosixPath]) *)

(** [anchor] is the root of the path: empty for a relative path, one
    slash, or two (exactly two leading slashes are kept apart by POSIX). *)
Record Path := MkPath {
  anchor : str;
  parts : list str
}.

#[global] Instance Path_eq_dec : EqDecision Path.
Proof. solve_decision. Defined.

Definition DOT : str := py ".".
Definition DOTDOT : str := py "..".

Fixpoint leading_slashes (s : str) : nat :=
  match s with
  | c :: t => if c =? SLASH then S (leading_slashes t) else 0%nat
  | [] => 0%nat
  end.

Definition is_component (c : str) : bool :=
  negb (bool_decide (c = [])) && negb (bool_decide (c = DOT)).

(** [Path(s)]: empty components and single dots vanish, [..] stays. *)
Definition Path_of (s : str) : Path :=
  MkPath
    (match leading_slashes s with
     | 0%nat => []
     | 2%nat => [SLASH; SLASH]
     | _ => [SLASH]
     end)
    (List.filter is_component (split SLASH s)).

(** [str(p)] *)
Definition Path_str (p : Path) : str :=
  match anchor p, parts p with
  | [], [] => DOT
  | a, ps => a ++ join [SLASH] ps
  end.

(** [p / s] *)
Definition Path_div (p : Path) (s : str) : Path :=
  let q := Path_of s in
  match anchor q with
  | [] => MkPath (anchor p) (parts p ++ parts q)
  | _ => q
  end.

(** [p.parents]: [parents[i]] drops the last [i+1] parts, so the
    nearest ancestor comes first and the anchor last. *)
Definition proper_prefixes (l : list str) : list (list str) :=
  (λ n, take n l) <$> rev (seq 0 (length l)).

Definition Path_parents (p : Path) : list Path :=
  MkPath (anchor p) <$> proper_prefixes (parts p).

Fixpoint strip_prefix (pre l : list str) : option (list str) :=
  match pre, l with
  | [], _ => Some l
  | a :: pre', b :: l' => if decide (a = b) then strip_prefix pre' l' else None
  | _ :: _, [] => None
  end.

(** [p.relative_to(other)]: purely lexical. *)
Definition Path_relative_to (p other : Path) : res Path :=
  if decide (anchor p = anchor other) then
    match strip_prefix (parts other) (parts p) with
    | Some r => Ok (MkPath [] r)
    | None => Raise ValueError
    end
  else Raise ValueError.

(** ** The file system *)

(** What iterating over an open text file gives: lines, then the end of
    the file, a [UnicodeDecodeError] from the decoder, or an [OSError]
    from the read itself (an I/O error on a file that opened). *)
Inductive text_stream :=
| Eof
| BadBytes
| ReadFails
| Line (text : str) (more : text_stream).

Inductive contents :=
| Unreadable                   (* [open] raises, e.g. PermissionError *)
| Readable (f : text_stream).

(** A directory carries the two access rights of the user that matter
    here: [r] to list it, [x] to look a name up in it. *)
Inductive node :=
| File (c : contents)
| Dir (r x : bool) (entries : list (str * node))
| Symlink (target : str)
| Special.                      (* socket, FIFO, device *)

Fixpoint lookup_entry (name : str) (es : list (str * node)) : option node :=
  match es with
  | [] => None
  | (n, x) :: es' => if decide (name = n) then Some x else lookup_entry name es'
  end.

(** The node at a list of names, following no link. *)
Fixpoint get (n : node) (p : list str) : option node :=
  match p with
  | [] => Some n
  | c :: p' =>
      match n with
      | Dir _ _ es =>
          match lookup_entry c es with
          | Some n' => get n' p'
          | None => None
          end
      | _ => None
      end
  end.

Definition MAXSYMLINKS : nat := 40.
Definition PATH_MAX : nat := 4096.
Definition NAME_MAX : nat := 255.

(** The number of bytes of a path string for the kernel: UTF-8, with the
    code points U+DC80 to U+DCFF standing for one undecodable byte
    each. *)
Definition utf8_len (c : char) : nat :=
  if c <? 128 then 1
  else if c <? 2048 then 2
  else if (56448 <=? c) && (c <=? 56575) then 1
  else if c <? 65536 then 3
  else 4.

Definition fs_len (s : str) : nat := sum_list (utf8_len <$> s).

Definition is_absolute (s : str) : bool :=
  match s with
  | c :: _ => c =? SLASH
  | [] => false
  end.

(** How a system call on a path ends: with what it found, with an error
    that [pathlib] takes for "not there" (ENOENT, ENOTDIR, ELOOP), or with
    one that it lets through (EACCES, ENAMETOOLONG). *)
Inductive answer (A : Type) :=
| Found (a : A)
| Absent
| Refused.
Arguments Found {A} a.
Arguments Absent {A}.
Arguments Refused {A}.

Definition answer_map {A B} (f : A → B) (a : answer A) : answer B :=
  match a with
  | Found x => Found (f x)
  | Absent => Absent
  | Refused => Refused
  end.

Section Resolution.
Variable root : node.

(** Path resolution as the kernel does it: [dir] is the link-free
    location of the directory reached so far, [comps] what is left to
    walk.  Looking a name up in a directory takes the right [x] on it;
    each link followed costs one unit of [links], and running out is
    ELOOP.  The answer holds the links left, the link-free location
    reached and the node there. *)
Fixpoint namei (links : nat) (dir : list str) (comps : list str)
    {struct links} : answer (nat * list str * node) :=
  (fix walk (dir : list str) (comps : list str) {struct comps}
      : answer (nat * list str * node) :=
     match comps with
     | [] =>
         match get root dir with
         | Some n => Found (links, dir, n)
         | None => Absent
         end
     | c :: cs =>
         if bool_decide (c = []) then walk dir cs
         else
           match get root dir with
           | Some (Dir _ x es) =>
               if negb x then Refused
               else if bool_decide (c = DOT) then walk dir cs
               else if bool_decide (c = DOTDOT) then walk (removelast dir) cs
               else if (NAME_MAX <? fs_len c)%nat then Refused
               else
                 match lookup_entry c es with
                 | None => Absent
                 | Some (Symlink t) =>
                     match links with
                     | O => Absent
                     | S links' =>
                         if bool_decide (t = []) then Absent
                         else namei links'
                                (if is_absolute t then [] else dir)
                                (split SLASH t ++ cs)
                     end
                 | Some (Dir _ _ _) => walk (dir ++ [c]) cs
                 | Some n =>
                     match cs with
                     | [] => Found (links, dir ++ [c], n)
                     | _ :: _ => Absent
                     end
                 end
           | _ => Absent
           end
     end) dir comps.
End Resolution.

(** ** The world the program runs in *)

Record World := MkWorld {
  root : node;                    (* the directory [/] *)
  cwd : list str;                 (* [os.getcwd()], link-free *)
  home : Path;                    (* [Path.home()] *)
  environ : gmap str str;         (* [os.environ] *)
  recursion_limit : nat;          (* frames left to a worker for [search] *)
  iterdir_frames : nat;           (* frames [p.iterdir()] needs inside *)
  is_dir_frames : nat;            (* frames [p.is_dir()] needs inside *)
  is_file_frames : nat;           (* frames [p.is_file()] needs inside *)
  stdout_encodable : char → bool  (* what the codec of [sys.stdout] takes *)
}.

Section OS.
Variable w : World.

(** Where a path string leads, following links: the empty string leads
    nowhere, a string of [PATH_MAX] bytes or more is refused. *)
Definition locate (s : str) : answer (nat * list str * node) :=
  if bool_decide (s = []) then Absent
  else if (PATH_MAX <=? fs_len s)%nat then Refused
  else namei (root w) MAXSYMLINKS
         (if is_absolute s then [] else cwd w) (split SLASH s).

(** [os.stat(s)] *)
Definition stat (s : str) : answer node := answer_map snd (locate s).

(** [os.path.exists(s)]: [False] on every error. *)
Definition os_path_exists (s : str) : bool :=
  match stat s with
  | Found _ => true
  | _ => false
  end.

Definition Path_cwd : Path := MkPath [SLASH] (cwd w).

(** [p.exists()], [p.is_dir()], [p.is_file()]: all follow links, answer
    [False] when [stat] fails with an error of the "not there" kind, and
    let any other [OSError] through. *)
Definition Path_exists (p : Path) : res bool :=
  match stat (Path_str p) with
  | Found _ => Ok true
  | Absent => Ok false
  | Refused => Raise OSError
  end.
Definition Path_is_dir (p : Path) : res bool :=
  match stat (Path_str p) with
  | Found (Dir _ _ _) => Ok true
  | Found _ | Absent => Ok false
  | Refused => Raise OSError
  end.
Definition Path_is_file (p : Path) : res bool :=
  match stat (Path_str p) with
  | Found (File _) => Ok true
  | Found _ | Absent => Ok false
  | Refused => Raise OSError
  end.

(** [p.iterdir()]: the listing is read when the loop starts and takes
    the right [r] on the directory; the names never include the dot
    entries. *)
Definition Path_iterdir (p : Path) : res (list Path) :=
  match stat (Path_str p) with
  | Found (Dir true _ es) => Ok ((λ e, Path_div p e.1) <$> es)
  | _ => Raise OSError
  end.

(** [open(p, 'r')] *)
Definition open (p : Path) : res text_stream :=
  match stat (Path_str p) with
  | Found (File (Readable f)) => Ok f
  | _ => Raise OSError
  end.

(** A call into the library made with [left] frames to go, of a function
    that nests [need] frames deep: it hits the recursion limit before it
    does anything when the frames do not suffice. *)
Definition call {A} (need left : nat) (r : res A) : res A :=
  if (left <? need)%nat then Raise RecursionError else r.
End OS.

(** ** Effects *)

(** What a run leaves behind: the two output streams, and the work items
    handed to the worker pool, in order of submission. *)
Record effects := MkEffects {
  stdout : str;
  stderr : str;
  submitted : list Path
}.

(** Code with effects that may raise: what happened before an exception
    stays. *)
Definition io (A : Type) := effects → effects * res A.

#[global] Instance io_ret : MRet io := λ A a c, (c, Ok a).
#[global] Instance io_bind : MBind io := λ A B f m c,
  match m c with
  | (c', Ok a) => f a c'
  | (c', Raise e) => (c', Raise e)
  end.

Definition lift {A} (r : res A) : io A := λ c, (c, r).

(** [print(s)]: the text goes to stdout in one write, which raises
    [UnicodeEncodeError] and writes nothing when the codec of stdout does
    not take one of its characters; the line feed that ends the line is
    written after it, and every codec takes it. *)
Definition print (w : World) (s : str) : io unit :=
  λ c, if forallb (stdout_encodable w) s
       then (MkEffects (stdout c ++ s ++ [LF]) (stderr c) (submitted c), Ok ())
       else (c, Raise ValueError).

(** [print(s, file=sys.stderr)]: stderr replaces what it cannot encode,
    and the one message the program sends there is plain ASCII. *)
Definition print_err (s : str) : io unit :=
  λ c, (MkEffects (stdout c) (stderr c ++ s ++ [LF]) (submitted c), Ok ()).

(** [pool.map(f, xs)]: every item is submitted; the results come back in
    the order of the inputs; a task that raises makes the call raise in
    the parent.  Tasks are independent and read one snapshot of the world,
    so their results are those of running them one after the other. *)
Definition pool_map {B : Type} (f : Path → res B) (l : list Path)
    : io (list B) :=
  λ c, (MkEffects (stdout c) (stderr c) (submitted c ++ l), mapM f l).

Fixpoint for_each {A} (body : A → io unit) (l : list A) : io unit :=
  match l with
  | [] => mret ()
  | x :: t => _ ← body x; for_each body t
  end.

(** ** The program *)

Definition todo := (N * str * str)%type.   (* (line, tag, text) *)

Record SearchResult := MkSearchResult {
  file : Path;
  todos : list todo
}.

Section Program.
Variable w : World.

(** *** [find_files] *)

(** The inner [search]: [acc] is the list [res] that the closure
    appends to; [depth] counts the frames left, of which the call itself
    takes one and the library calls it makes need some of the rest. *)
Fixpoint search (depth : nat) (p : Path) (acc : list Path)
    : res (list Path) :=
  match depth with
  | O => Raise RecursionError
  | S depth' =>
      items ← call (iterdir_frames w) depth' (Path_iterdir w p);
      foldM (λ acc item,
               d ← call (is_dir_frames w) depth' (Path_is_dir w item);
               if d : bool then search depth' item acc
               else
                 f ← call (is_file_frames w) depth' (Path_is_file w item);
                 if f : bool then Ok (acc ++ [item]) else Ok acc)
            acc items
  end.

Definition find_files (directory : Path) : res (list Path) :=
  search (recursion_limit w) directory [].

(** *** [search_file] *)

(** The [for line, text in enumerate(f, 1)] loop. *)
Fixpoint scan (line : N) (f : text_stream) (acc : list todo)
    : res (list todo) :=
  match f with
  | Eof => Ok acc
  | BadBytes => Raise UnicodeDecodeError
  | ReadFails => Raise OSError
  | Line text more =>
      match Re.search regex text with
      | Some m =>
          (* [m['tag']] and [m['text']] are [None] for a group that took
             no part in the match, and [None.strip()] raises; with this
             pattern both groups always take part. *)
          match group m g_tag, group m g_text with
          | Some tag, Some txt =>
              scan (N.succ line) more (acc ++ [(line, tag, strip txt)])
          | _, _ => Raise AttributeError
          end
      | None => scan (N.succ line) more acc
      end
  end.

Definition search_file (path : Path) : res (option SearchResult) :=
  f ← open w path;
  match scan 1 f [] with
  | Ok found => Ok (Some (MkSearchResult path found))
  | Raise UnicodeDecodeError => Ok None
  | Raise e => Raise e
  end.

(** *** [SearchResult.__str__] *)

Definition format_todo (name : str) (t : todo) : str :=
  let '(line, tag, text) := t in
  ljust 7 tag ++ [SP] ++ name ++ [COLON] ++ ljust 4 (str_of_int line)
    ++ [SP] ++ text.

Definition SearchResult_str (r : SearchResult) : res str :=
  rel ← Path_relative_to (file r) (home w);
  Ok (join [LF] (format_todo (Path_str rel) <$> todos r)).

(** *** Helpers *)

Definition bail (msg : str) : io unit :=
  _ ← print_err (py "ERROR: " ++ msg);
  lift (Raise (SystemExit 1)).

Definition TODO_PATH : str := py "TODO_PATH".

Definition todo_paths : io (list Path) :=
  _ ← (if bool_decide (is_Some (environ w !! TODO_PATH)) then mret ()
       else bail (py "TODO_PATH not set."));
  match environ w !! TODO_PATH with
  | Some v =>
      mret (Path_of <$> List.filter (os_path_exists w) (split COLON v))
  | None => lift (Raise KeyError)
  end.

(** The [for path in [cwd, *cwd.parents]] loop. *)
Fixpoint first_with_git (l : list Path) : res (option Path) :=
  match l with
  | [] => Ok None
  | path :: l' =>
      b ← Path_exists w (Path_div path (py ".git"));
      if b : bool then Ok (Some path) else first_with_git l'
  end.

Definition current_git_repo : res (option Path) :=
  first_with_git (Path_cwd w :: Path_parents (Path_cwd w)).

(** *** [main] *)

(** [res and res.todos] *)
Definition keep (r : option SearchResult) : option SearchResult :=
  match r with
  | Some x => if bool_decide (todos x = []) then None else Some x
  | None => None
  end.

Definition main : io unit :=
  repo ← lift current_git_repo;
  paths ← match repo with
          | Some r => mret [r]
          | None => todo_paths
          end;
  files ← pool_map find_files paths;
  found ← pool_map search_file (concat files);
  let results := omap keep found in
  for_each (λ r, s ← lift (SearchResult_str r); print w s) results.
End Program.

(** ** Running the program *)

Record outcome := MkOutcome {
  out : str;                    (* everything written to stdout *)
  err : str;                    (* messages the program wrote to stderr *)
  scanned : list Path;          (* roots enumerated and files searched *)
  exit_code : Z;
  traceback : option exn        (* an exception nobody caught *)
}.

Definition run_program (w : World) : outcome :=
  match main w (MkEffects [] [] []) with
  | (c, Ok _) => MkOutcome (stdout c) (stderr c) (submitted c) 0 None
  | (c, Raise (SystemExit n)) =>
      MkOutcome (stdout c) (stderr c) (submitted c) n None
  | (c, Raise e) => MkOutcome (stdout c) (stderr c) (submitted c) 1 (Some e)
  end.

(** * Vocabulary of the properties *)

(** ** Greedy repetition and the pattern read in one pass *)

(** The longest prefix of [l] in the class [p], and what follows it. *)
Fixpoint take_while (p : char → bool) (l : str) : str :=
  match l with
  | x :: t => if p x then x :: take_while p t else []
  | [] => []
  end.

Fixpoint drop_while (p : char → bool) (l : str) : str :=
  match l with
  | x :: t => if p x then drop_while p t else l
  | [] => []
  end.

(** The state [c*] hands over when it takes all it can. *)
Definition after (p : char → bool) (n : nat) (cs : list (nat * str))
    (l : str) : mstate :=
  MState (n + length (take_while p l)) (drop_while p l) cs.

(** The pattern needs no backtracking: each repetition is followed by a
    character outside its class.  [p_line] reads a line in one pass and
    returns the state the matcher ends in; [p_token], [p_gap], [p_tag]
    and [p_text] read from the comment token, the blank after it, the tag
    and the space after the tag.  [n] is the offset, [l] the text left,
    [cs] the groups so far. *)
Definition p_text (n : nat) (l : str) (cs : list (nat * str)) : option mstate :=
  match l with
  | x :: t =>
      if x =? SP then
        Some (MState (S n + length (take_while dot t)) (drop_while dot t)
                ((g_text, take_while dot t) :: cs))
      else None
  | [] => None
  end.

Definition p_tag (n : nat) (l : str) (cs : list (nat * str)) : option mstate :=
  match l with
  | a :: u :: t =>
      if (a =? AT) && isupper_AZ u then
        p_text (S (S n) + length (take_while isupper_AZ t))
               (drop_while isupper_AZ t)
               ((g_tag, a :: u :: take_while isupper_AZ t) :: cs)
      else None
  | _ => None
  end.

Definition p_gap (n : nat) (l : str) (cs : list (nat * str)) : option mstate :=
  match l with
  | x :: t =>
      if isspace x then
        p_tag (S n + length (take_while isspace t)) (drop_while isspace t) cs
      else None
  | [] => None
  end.

Definition p_token (n : nat) (l : str) (cs : list (nat * str)) : option mstate :=
  match l with
  | a :: t =>
      if a =? HASH then p_gap (S n) t ((1%nat, [HASH]) :: cs)
      else if a =? ASTERISK then p_gap (S n) t ((1%nat, [ASTERISK]) :: cs)
      else if a =? SLASH then
        match t with
        | b :: t' =>
            if b =? SLASH then
              p_gap (S (S n)) t' ((1%nat, [SLASH; SLASH]) :: cs)
            else if b =? ASTERISK then
              p_gap (S (S n)) t' ((1%nat, [SLASH; ASTERISK]) :: cs)
            else None
        | [] => None
        end
      else None
  | [] => None
  end.

Definition p_line (l : str) : option mstate :=
  match l with
  | x :: t =>
      if isspace x then
        p_token (1 + length (take_while isspace t)) (drop_while isspace t) []
      else None
  | [] => None
  end.

(** The tails of the pattern that [p_text] to [p_token] stand for. *)
Definition r_text : Re.regex := Cat (Chr SP) (Group g_text (Star dot)).

Definition r_tag : Re.regex :=
  Cat (Group g_tag (Cat (Chr AT) (Plus isupper_AZ))) r_text.

Definition r_gap : Re.regex := Cat (Plus isspace) r_tag.

Definition r_token : Re.regex :=
  Cat (Group 1 (Alt (Cat (Chr SLASH) (Chr SLASH))
               (Alt (Chr HASH) (Cat (Opt (Chr SLASH)) (Chr ASTERISK)))))
      r_gap.

(** ** The shape of an annotated line *)

(** Every character of [s] is in the class [p]. *)
Abbreviation all p s := (Forall (λ c, p c = true) s).

(** The comment-opening tokens. *)
Definition comment_token (t : str) : Prop :=
  t = py "//" ∨ t = py "#" ∨ t = py "*" ∨ t = py "/*".

(** One or more whitespace characters. *)
Definition blank (s : str) : Prop := s ≠ [] ∧ all isspace s.

(** [@] and one or more letters of [A-Z]. *)
Definition tag_token (s : str) : Prop :=
  ∃ up, s = AT :: up ∧ up ≠ [] ∧ all isupper_AZ up.

(** What the pattern accepts, and the two named groups it yields: blank,
    comment token, blank, tag, one space, free text.  The group [text]
    stops at the line feed that ends the line. *)
Definition annotated_line (line tag raw : str) : Prop :=
  ∃ ws tok gap rest,
    line = ws ++ tok ++ gap ++ tag ++ SP :: rest
    ∧ blank ws ∧ comment_token tok ∧ blank gap ∧ tag_token tag
    ∧ raw = take_while dot rest.

(** The claim's wording of the shape: exactly one whitespace character
    between the comment token and the tag. *)
Definition annotated_line_one_space (line : str) : Prop :=
  ∃ ws tok g tag rest,
    line = ws ++ tok ++ g :: tag ++ SP :: rest
    ∧ blank ws ∧ comment_token tok ∧ isspace g = true ∧ tag_token tag.

(** The two named groups of the match on a line, if there is one. *)
Definition line_groups (line : str) : option (str * str) :=
  m ← Re.search regex line;
  tag ← group m g_tag;
  raw ← group m g_text;
  Some (tag, raw).

(** ** Whole files *)

(** The lines a file yields, and whether it yields them to the end. *)
Fixpoint lines_of (f : text_stream) : list str :=
  match f with
  | Line l more => l :: lines_of more
  | _ => []
  end.

Fixpoint decodes (f : text_stream) : bool :=
  match f with
  | BadBytes => false
  | Line _ more => decodes more
  | _ => true
  end.

(** Whether the reads themselves go through to the end. *)
Fixpoint reads (f : text_stream) : bool :=
  match f with
  | ReadFails => false
  | Line _ more => reads more
  | _ => true
  end.

(** The annotations of a list of lines, numbered from [n]. *)
Fixpoint collect (n : N) (ls : list str) : list todo :=
  match ls with
  | [] => []
  | l :: t =>
      match line_groups l with
      | Some (tag, raw) => [(n, tag, strip raw)]
      | None => []
      end ++ collect (N.succ n) t
  end.

Definition line_no (t : todo) : N := t.1.1.

(** ** The phases of [main] *)

(** Lines 26-27: the roots to scan. *)
Definition scan_roots (w : World) : io (list Path) :=
  repo ← lift (current_git_repo w);
  match repo with
  | Some r => mret [r]
  | None => todo_paths w
  end.

(** Lines 37-38: the loop that prints the results kept. *)
Definition report (w : World) (results : list SearchResult) : io unit :=
  for_each (λ r, s ← lift (SearchResult_str w r); print w s) results.

(** Lines 31-38: match, filter and print. *)
Definition match_and_report (w : World) (files : list Path) : io unit :=
  found ← pool_map (search_file w) files;
  report w (omap keep found).





(** ** What the reporter writes *)

(** One printed line: the tag in a field of 7, a space, the file name, a
    colon, the line number in a field of 4, a space, the text. *)
Definition annotation_line (name : str) (t : todo) : str :=
  ljust 7 t.1.2 ++ [SP] ++ name ++ [COLON] ++ ljust 4 (str_of_int t.1.1)
    ++ [SP] ++ t.2 ++ [LF].

(** The lines of one report. *)
Definition block (name : str) (r : SearchResult) : str :=
  concat (annotation_line name <$> todos r).

(** The text of one report as [print] receives it: its lines joined by
    line feeds. *)
Definition report_text (name : str) (r : SearchResult) : str :=
  join [LF] (format_todo name <$> todos r).

(** Whether stdout can encode a text. *)
Definition encodable (w : World) (s : str) : bool :=
  forallb (stdout_encodable w) s.

(** The name a report is printed under, when it can be printed: its file
    lies below the home directory and stdout can encode its text. *)
Definition printable (w : World) (r : SearchResult) : option str :=
  match Path_relative_to (file r) (home w) with
  | Ok name =>
      if encodable w (report_text (Path_str name) r) then Some (Path_str name)
      else None
  | Raise _ => None
  end.

(** What [report] writes, and whether it gets to the end. *)
Fixpoint printed (w : World) (rs : list SearchResult) : str * bool :=
  match rs with
  | [] => ([], true)
  | r :: rs' =>
      match printable w r with
      | Some name => (block name r ++ (printed w rs').1, (printed w rs').2)
      | None => ([], false)
      end
  end.

(** The reports that reach stdout, with the name each is printed under. *)
Fixpoint shown (w : World) (rs : list SearchResult) : list (str * SearchResult) :=
  match rs with
  | [] => []
  | r :: rs' =>
      match printable w r with
      | Some name => (name, r) :: shown w rs'
      | None => []
      end
  end.

(** ** Walking the tree *)

(** A name a directory entry can have. *)
Definition valid_name (name : str) : bool :=
  negb (bool_decide (name = [])) && negb (bool_decide (SLASH ∈ name))
  && negb (bool_decide (name = DOT)) && negb (bool_decide (name = DOTDOT))
  && (fs_len name <=? NAME_MAX)%nat.

(** Every directory of the tree lists valid names, each once. *)
Fixpoint wf_node (n : node) : bool :=
  match n with
  | Dir _ _ es =>
      bool_decide (NoDup es.*1) && forallb valid_name es.*1
      && forallb (λ e, wf_node e.2) es
  | _ => true
  end.

(** What [find_files] is after: [collected w dir q] when [q] is reached
    from [dir] by going down through entries that are directories to an
    entry that is a regular file, both as [is_dir] and [is_file] see
    them. *)
Inductive collected (w : World) : Path → Path → Prop :=
| collected_file dir items item :
    Path_iterdir w dir = Ok items → item ∈ items →
    Path_is_dir w item = Ok false → Path_is_file w item = Ok true →
    collected w dir item
| collected_below dir items item q :
    Path_iterdir w dir = Ok items → item ∈ items →
    Path_is_dir w item = Ok true → collected w item q →
    collected w dir q.

(** [nested w n dir]: there are [n] directories one inside the other
    below [dir]. *)
Fixpoint nested (w : World) (n : nat) (dir : Path) : bool :=
  match n with
  | O => true
  | S n' =>
      match Path_iterdir w dir with
      | Ok items =>
          existsb (λ item, match Path_is_dir w item with
                           | Ok true => nested w n' item
                           | _ => false
                           end) items
      | Raise _ => false
      end
  end.

(** [clean w n dir]: down to [n] levels below [dir], every directory can
    be listed and every entry examined. *)
Fixpoint clean (w : World) (n : nat) (dir : Path) : bool :=
  match n with
  | O => true
  | S n' =>
      match Path_iterdir w dir with
      | Ok items =>
          forallb (λ item, match Path_is_dir w item with
                           | Ok true => clean w n' item
                           | Ok false => true
                           | Raise _ => false
                           end) items
      | Raise _ => false
      end
  end.

(** The frames the deepest of the three library calls of [search]
    needs. *)
Definition lib_frames (w : World) : nat :=
  Nat.max (Nat.max (iterdir_frames w) (is_dir_frames w)) (is_file_frames w).

(** The body of the loop of [search], one level down. *)
Definition visit (w : World) (depth : nat) (acc : list Path) (item : Path)
    : res (list Path) :=
  d ← call (is_dir_frames w) depth (Path_is_dir w item);
  if d : bool then search w depth item acc
  else
    f ← call (is_file_frames w) depth (Path_is_file w item);
    if f : bool then Ok (acc ++ [item]) else Ok acc.

(** What one entry contributes. *)
Definition hit (w : World) (item q : Path) : Prop :=
  (Path_is_dir w item = Ok false ∧ Path_is_file w item = Ok true ∧ q = item)
  ∨ (Path_is_dir w item = Ok true ∧ collected w item q).

(** What [stat] answers for the entry [name ↦ n] of the directory at the
    link-free location [d], reached with [links] links to go: the entry
    itself unless it is a link, else what the target of the link leads
    to, taken from [d] when it is relative. *)
Definition entry_stat (w : World) (links : nat) (d : list str) (n : node)
    : answer node :=
  match n with
  | Symlink t =>
      match links with
      | O => Absent
      | S links' =>
          if bool_decide (t = []) then Absent
          else answer_map snd
                 (namei (root w) links' (if is_absolute t then [] else d)
                    (split SLASH t))
      end
  | _ => Found n
  end.

(** The anchors [pathlib] produces. *)
Definition anchored (p : Path) : Prop :=
  anchor p = [] ∨ anchor p = [SLASH] ∨ anchor p = [SLASH; SLASH].

(** ** Sample worlds *)

(** A directory the user may list and search. *)
Definition folder (es : list (str * node)) : node := Dir true true es.

(** The strict UTF-8 codec: everything but the surrogates. *)
Definition utf8_strict (c : char) : bool :=
  negb ((55296 <=? c) && (c <=? 57343)).

(** A machine with the home directory [/home/u], a UTF-8 terminal and
    library calls a few frames deep. *)
Definition machine (root : node) (cwd : list str) (env : gmap str str)
    (limit : nat) : World :=
  MkWorld root cwd (Path_of (py "/home/u")) env limit 3 5 3 utf8_strict.

(** The file of the specification's example: two annotations and a plain
    line. *)
Definition notes : text_stream :=
  Line (py "    # @TODO fix this later" ++ [LF])
 (Line (py "    normal comment, no tag" ++ [LF])
 (Line (py "    // @FIXME broken on windows" ++ [LF]) Eof)).

(** [/home/u/proj] holds that file, a file without annotations, a file
    that stops decoding after an annotated line, a link to the first file
    and a socket. *)
Definition proj_entries : list (str * node) :=
  [(py "notes.txt", File (Readable notes));
   (py "plain.txt", File (Readable (Line (py "nothing here") Eof)));
   (py "blob.bin", File (Readable (Line (py " # @TODO lost" ++ [LF]) BadBytes)));
   (py "link", Symlink (py "notes.txt"));
   (py "sock", Special)].

Definition proj : node := folder proj_entries.

Definition tree : node :=
  folder [(py "home", folder [(py "u", folder [(py "proj", proj)])])].

Definition sample (env : gmap str str) : World :=
  machine tree [py "home"; py "u"] env 1000.

Definition notes_path : Path := Path_of (py "/home/u/proj/notes.txt").

Definition proj_path : Path := Path_of (py "/home/u/proj").

Definition blob_path : Path := Path_of (py "/home/u/proj/blob.bin").

Definition secret_path : Path := Path_of (py "/home/u/proj/secret.txt").

Definition two_roots : gmap str str :=
  {[ TODO_PATH := py "/home/u/proj:/b:/home/u/proj" ]}.

Definition only_colons : gmap str str := {[ TODO_PATH := py "::/nowhere" ]}.


(** A tree with a file the user may not read next to an annotated one. *)
Definition locked : World :=
  machine
    (folder [(py "home", folder [(py "u", folder [(py "proj",
       folder [(py "notes.txt", File (Readable notes));
            (py "secret.txt", File Unreadable)])])])])
    [py "home"; py "u"] {[ TODO_PATH := py "/home/u/proj" ]} 1000.

(** A tree with a directory the user may not list. *)
Definition sealed : World :=
  machine
    (folder [(py "home", folder [(py "u", folder [(py "proj",
       folder [(py "notes.txt", File (Readable notes));
               (py "private",
                Dir false true [(py "x.py", File (Readable notes))])])])])])
    [py "home"; py "u"] ∅ 1000.

(** The same with a directory the user may list but not search. *)
Definition no_search : World :=
  machine
    (folder [(py "home", folder [(py "u", folder [(py "proj",
       folder [(py "notes.txt", File (Readable notes));
               (py "private",
                Dir true false [(py "x.py", File (Readable notes))])])])])])
    [py "home"; py "u"] ∅ 1000.

(** The sample tree with eight frames left: enough to enumerate
    [/home/u/proj], not enough to get there from [/]. *)
Definition tight : World :=
  machine tree [py "home"; py "u"] ∅ 8.

(** A file whose name holds a byte that is not UTF-8, which the listing
    hands out as the lone surrogate U+DCE9, between two plain ones. *)
Definition odd_name : str := py "b" ++ [56553] ++ py ".py".

Definition odd : World :=
  machine
    (folder [(py "home", folder [(py "u", folder [(py "proj",
       folder [(py "a.py", File (Readable (Line (py "  # @TODO a") Eof)));
               (odd_name, File (Readable (Line (py "  # @TODO b") Eof)));
               (py "c.py", File (Readable (Line (py "  # @TODO c") Eof)))])])])])
    [py "home"; py "u"] {[ TODO_PATH := py "/home/u/proj" ]} 1000.

Definition odd_path : Path := Path_of (py "/home/u/proj/" ++ odd_name).

(** A report with one annotation, on the first line. *)
Definition one_todo (p : Path) (text : str) : SearchResult :=
  MkSearchResult p [(1, py "@TODO", text)].

Definition notes_report : SearchResult :=
  MkSearchResult notes_path
    [(1, py "@TODO", py "fix this later");
     (3, py "@FIXME", py "broken on windows")].

Definition outside_report : SearchResult :=
  MkSearchResult (Path_of (py "/srv/x.py")) [(12, py "@XXX", py "note")].

(** ** Vocabulary of the further properties *)

(** What one entry of a directory gives [find_files], started afresh:
    the loop body of [search] with an empty accumulator. *)
Definition entry_files (w : World) (depth : nat) (item : Path)
    : res (list Path) :=
  visit w depth [] item.

(** The first and the last character of a string, if any. *)
Definition first_char (s : str) : option char := head s.
Definition last_char (s : str) : option char := last s.

(** A character that is not whitespace, if there is one. *)
Definition not_space (o : option char) : Prop :=
  ∀ c, o = Some c → isspace c = false.

(** [TODO_PATH] naming a regular file. *)
Definition file_root : gmap str str :=
  {[ TODO_PATH := py "/home/u/proj/notes.txt" ]}.

(** The sample tree with room for two frames only. *)
Definition low_limit : World :=
  machine tree [py "home"; py "u"] ∅ 2.

(** * Properties *)

(** ** Greedy repetition *)

Lemma take_drop_while p l : take_while p l ++ drop_while p l = l.
Proof. induction l as [|x t IH]; simpl; [done|]. destruct (p x); simpl; by f_equal. Qed.

Lemma take_while_all p l : Forall (λ c, p c = true) (take_while p l).
Proof.
  induction l as [|x t IH]; simpl; [constructor|].
  destruct (p x) eqn:E; by constructor.
Qed.

(** A run of [p]-characters followed by something that does not start
    with one splits in only one way. *)
Lemma take_while_app p a b :
  Forall (λ c, p c = true) a →
  match b with x :: _ => p x = false | [] => True end →
  take_while p (a ++ b) = a ∧ drop_while p (a ++ b) = b.
Proof.
  intros Ha Hb. induction Ha as [|x a Hx Ha IH]; simpl.
  - destruct b as [|x t]; simpl; [done|]. by rewrite Hb.
  - rewrite Hx. destruct IH as [-> ->]. done.
Qed.

Lemma take_length_take_while p l :
  take (length (take_while p l)) l = take_while p l.
Proof. rewrite <- (take_drop_while p l) at 2. by rewrite take_app_length. Qed.

Lemma take_take_while p l n :
  take (n + length (take_while p l) - n) l = take_while p l.
Proof.
  replace (n + length (take_while p l) - n)%nat
    with (length (take_while p l)) by lia.
  apply take_length_take_while.
Qed.

(** When the continuation refuses every state that still starts with a
    [p]-character, giving characters back never helps: [c*] is decided
    by the longest run. *)
Lemma star_longest p k n cs l :
  (∀ n' x t, p x = true → k (MState n' (x :: t) cs) = None) →
  star p k n cs l = k (after p n cs l).
Proof.
  intros Hk. unfold after. revert n.
  induction l as [|x t IH]; intros n; simpl.
  - by rewrite Nat.add_0_r.
  - destruct (p x) eqn:E; simpl.
    + rewrite IH. replace (S n + length (take_while p t))%nat
        with (n + S (length (take_while p t)))%nat by lia.
      destruct (k _); [done|]. by rewrite Hk.
    + by rewrite Nat.add_0_r.
Qed.

(** When the continuation accepts the longest run, that is the match. *)
Lemma star_accepts p k n cs l m :
  k (after p n cs l) = Some m → star p k n cs l = Some m.
Proof.
  unfold after. revert n. induction l as [|x t IH]; intros n; simpl.
  - by rewrite Nat.add_0_r.
  - destruct (p x) eqn:E; simpl.
    + replace (n + S (length (take_while p t)))%nat
        with (S n + length (take_while p t))%nat by lia.
      intros H. by rewrite (IH _ H).
    + by rewrite Nat.add_0_r.
Qed.

(** ** The pattern read left to right *)

Lemma regex_unfold : regex = Cat Bol (Cat (Plus isspace) r_token).
Proof. reflexivity. Qed.

Lemma upper_not_space x : isupper_AZ x = true → (x =? SP) = false.
Proof.
  unfold isupper_AZ, SP. intros H. apply N.eqb_neq. intros ->. done.
Qed.

Lemma space_facts x :
  isspace x = true →
  (x =? AT) = false ∧ (x =? HASH) = false ∧ (x =? ASTERISK) = false
  ∧ (x =? SLASH) = false.
Proof.
  intros H. repeat split; apply N.eqb_neq; intros ->; done.
Qed.

Lemma run_text n l cs : Re.run r_text (MState n l cs) Some = p_text n l cs.
Proof.
  unfold p_text. destruct l as [|x t]; cbv [r_text]; simpl; [done|].
  destruct (x =? SP); [|done].
  erewrite star_accepts; [|reflexivity].
  unfold after. simpl. do 2 f_equal.
  f_equal. f_equal. apply (take_take_while dot t (S n)).
Qed.

#[local] Opaque r_text.

Lemma run_tag n l cs : Re.run r_tag (MState n l cs) Some = p_tag n l cs.
Proof.
  unfold p_tag. destruct l as [|a [|u t]]; cbv [r_tag]; simpl.
  - done.
  - by destruct (a =? AT).
  - destruct (N.eqb_spec a AT) as [->|]; simpl; [|done].
    destruct (isupper_AZ u) eqn:Hu; [|done].
    rewrite star_longest.
    + unfold after. simpl. rewrite run_text. do 3 f_equal.
      replace (S (S (n + length (take_while isupper_AZ t))) - n)%nat
        with (S (S (length (take_while isupper_AZ t)))) by lia.
      simpl. do 2 f_equal.
      apply take_length_take_while.
    + intros n' x t' Hx. simpl. rewrite run_text. simpl.
      by rewrite (upper_not_space x Hx).
Qed.

#[local] Opaque r_tag.

Lemma run_gap n l cs : Re.run r_gap (MState n l cs) Some = p_gap n l cs.
Proof.
  unfold p_gap. destruct l as [|x t]; cbv [r_gap]; simpl; [done|].
  destruct (isspace x) eqn:Hx; [|done].
  rewrite star_longest.
  - unfold after. by rewrite run_tag.
  - intros n' y t' Hy. simpl. rewrite run_tag. unfold p_tag.
    destruct (space_facts y Hy) as (-> & _). by destruct t'.
Qed.

#[local] Opaque r_gap.

Lemma run_token n l cs : Re.run r_token (MState n l cs) Some = p_token n l cs.
Proof.
  assert (H1 : (S n - n = 1)%nat) by lia.
  assert (H2 : (S (S n) - n = 2)%nat) by lia.
  unfold p_token. destruct l as [|a t]; cbv [r_token]; simpl; [done|].
  destruct (N.eqb_spec a HASH) as [->|Hh]; simpl.
  { rewrite run_gap, H1. simpl. by destruct (p_gap _ _ _). }
  destruct (N.eqb_spec a ASTERISK) as [->|Ha]; simpl.
  { by rewrite run_gap, H1. }
  destruct (N.eqb_spec a SLASH) as [->|Hs]; simpl; [|done].
  destruct t as [|b t']; simpl; [done|].
  destruct (N.eqb_spec b SLASH) as [->|Hs']; simpl.
  { rewrite run_gap, H2. simpl. by destruct (p_gap _ _ _). }
  destruct (N.eqb_spec b ASTERISK) as [->|Ha']; simpl; [|done].
  rewrite run_gap, H2. simpl. by destruct (p_gap _ _ _).
Qed.

#[local] Opaque r_token.

Lemma run_regex l : Re.run regex (MState 0 l []) Some = p_line l.
Proof.
  rewrite regex_unfold. unfold p_line. destruct l as [|x t]; simpl; [done|].
  destruct (isspace x) eqn:Hx; [|done].
  rewrite star_longest.
  - unfold after. by rewrite run_token.
  - intros n' y t' Hy. simpl. rewrite run_token. unfold p_token.
    destruct (space_facts y Hy) as (_ & -> & -> & ->). done.
Qed.

(** The caret only holds at offset 0, so scanning on never finds more. *)
Lemma search_from_later n l : Re.search_from regex (S n) l = None.
Proof. revert n. induction l as [|x t IH]; intros n; simpl; [done|apply IH]. Qed.

Lemma search_from_eq r n l :
  Re.search_from r n l =
  match Re.run r (MState n l []) Some with
  | Some m => Some m
  | None => match l with [] => None | _ :: t => Re.search_from r (S n) t end
  end.
Proof. by destruct l. Qed.

Lemma search_regex l : Re.search regex l = p_line l.
Proof.
  unfold Re.search. rewrite search_from_eq, run_regex.
  destruct (p_line l); [done|]. destruct l; [done|apply search_from_later].
Qed.

(** ** The shape of an annotated line *)

Lemma p_text_caps n l cs C :
  caps <$> p_text n l cs = Some C ↔
  ∃ rest, l = SP :: rest ∧ C = (g_text, take_while dot rest) :: cs.
Proof.
  unfold p_text. split.
  - destruct l as [|x t]; [done|].
    destruct (N.eqb_spec x SP) as [->|]; [|done].
    simpl. intros [= <-]. by exists t.
  - intros (rest & -> & ->). done.
Qed.

Lemma p_tag_caps n l cs C :
  caps <$> p_tag n l cs = Some C ↔
  ∃ up rest, l = AT :: up ++ SP :: rest ∧ up ≠ [] ∧ all isupper_AZ up
    ∧ C = (g_text, take_while dot rest) :: (g_tag, AT :: up) :: cs.
Proof.
  unfold p_tag. split.
  - destruct l as [|a [|u t]]; [done..|].
    destruct (N.eqb_spec a AT) as [->|]; [|done].
    destruct (isupper_AZ u) eqn:Hu; [|done]. simpl.
    intros (rest & Hd & ->)%p_text_caps.
    exists (u :: take_while isupper_AZ t), rest. split_and!.
    + simpl. rewrite <- Hd. by rewrite take_drop_while.
    + done.
    + constructor; [done|apply take_while_all].
    + done.
  - intros (up & rest & -> & Hne & Hup & ->).
    destruct up as [|u up]; [done|]. simpl.
    apply Forall_cons in Hup as [Hu Hup]. rewrite Hu. simpl.
    destruct (take_while_app isupper_AZ up (SP :: rest) Hup) as [-> ->]; [done|].
    apply p_text_caps. by exists rest.
Qed.

Lemma p_gap_caps n l cs C :
  caps <$> p_gap n l cs = Some C ↔
  ∃ gap up rest, l = gap ++ AT :: up ++ SP :: rest ∧ blank gap
    ∧ up ≠ [] ∧ all isupper_AZ up
    ∧ C = (g_text, take_while dot rest) :: (g_tag, AT :: up) :: cs.
Proof.
  unfold p_gap. split.
  - destruct l as [|x t]; [done|].
    destruct (isspace x) eqn:Hx; [|done].
    intros (up & rest & Hd & Hne & Hup & ->)%p_tag_caps.
    exists (x :: take_while isspace t), up, rest. split_and!; try done.
    + simpl. rewrite <- Hd. by rewrite take_drop_while.
    + split; [done|]. constructor; [done|apply take_while_all].
  - intros (gap & up & rest & -> & [Hne Hg] & Hne' & Hup & ->).
    destruct gap as [|x gap]; [done|]. simpl.
    apply Forall_cons in Hg as [Hx Hg]. rewrite Hx.
    destruct (take_while_app isspace gap (AT :: up ++ SP :: rest) Hg)
      as [-> ->]; [done|].
    apply p_tag_caps. by exists up, rest.
Qed.

Lemma p_token_caps n l cs C :
  caps <$> p_token n l cs = Some C ↔
  ∃ tok gap up rest, l = tok ++ gap ++ AT :: up ++ SP :: rest
    ∧ comment_token tok ∧ blank gap ∧ up ≠ [] ∧ all isupper_AZ up
    ∧ C = (g_text, take_while dot rest) :: (g_tag, AT :: up)
            :: (1%nat, tok) :: cs.
Proof.
  unfold p_token, comment_token. split.
  - destruct l as [|a t]; [done|].
    destruct (N.eqb_spec a HASH) as [->|Hh].
    { intros (gap & up & rest & -> & ? & ? & ? & ->)%p_gap_caps.
      exists [HASH], gap, up, rest. split_and!; auto. }
    destruct (N.eqb_spec a ASTERISK) as [->|Ha].
    { intros (gap & up & rest & -> & ? & ? & ? & ->)%p_gap_caps.
      exists [ASTERISK], gap, up, rest. split_and!; auto. }
    destruct (N.eqb_spec a SLASH) as [->|Hs]; [|done].
    destruct t as [|b t']; [done|].
    destruct (N.eqb_spec b SLASH) as [->|Hs'].
    { intros (gap & up & rest & -> & ? & ? & ? & ->)%p_gap_caps.
      exists [SLASH; SLASH], gap, up, rest. split_and!; auto. }
    destruct (N.eqb_spec b ASTERISK) as [->|Ha']; [|done].
    intros (gap & up & rest & -> & ? & ? & ? & ->)%p_gap_caps.
    exists [SLASH; ASTERISK], gap, up, rest. split_and!; auto.
  - intros (tok & gap & up & rest & -> & Htok & Hgap & Hne & Hup & ->).
    destruct Htok as [-> | [-> | [-> | ->]]]; simpl;
      apply p_gap_caps; by exists gap, up, rest.
Qed.

Lemma p_line_caps l C :
  caps <$> p_line l = Some C ↔
  ∃ ws tok gap up rest, l = ws ++ tok ++ gap ++ AT :: up ++ SP :: rest
    ∧ blank ws ∧ comment_token tok ∧ blank gap
    ∧ up ≠ [] ∧ all isupper_AZ up
    ∧ C = [(g_text, take_while dot rest); (g_tag, AT :: up); (1%nat, tok)].
Proof.
  unfold p_line. split.
  - destruct l as [|x t]; [done|].
    destruct (isspace x) eqn:Hx; [|done].
    intros (tok & gap & up & rest & Hd & ? & ? & ? & ? & ->)%p_token_caps.
    exists (x :: take_while isspace t), tok, gap, up, rest.
    split_and!; try done.
    + simpl. rewrite <- Hd. by rewrite take_drop_while.
    + split; [done|]. constructor; [done|apply take_while_all].
  - intros (ws & tok & gap & up & rest & -> & [Hne Hws] & Htok & Hgap
            & Hne' & Hup & ->).
    destruct ws as [|x ws]; [done|]. simpl.
    apply Forall_cons in Hws as [Hx Hws]. rewrite Hx.
    destruct (take_while_app isspace ws
                (tok ++ gap ++ AT :: up ++ SP :: rest) Hws) as [-> ->].
    { by destruct Htok as [-> | [-> | [-> | ->]]]. }
    apply p_token_caps. by exists tok, gap, up, rest.
Qed.

Lemma line_groups_iff line tag raw :
  line_groups line = Some (tag, raw) ↔ annotated_line line tag raw.
Proof.
  unfold line_groups, annotated_line. rewrite search_regex. split.
  - destruct (p_line line) as [m|] eqn:Hp; [|done]. simpl.
    assert (Hc : caps <$> p_line line = Some (caps m)) by by rewrite Hp.
    apply p_line_caps in Hc
      as (ws & tok & gap & up & rest & -> & ? & ? & ? & ? & ? & Hc).
    unfold group. rewrite Hc. simpl. intros [= <- <-].
    exists ws, tok, gap, rest. split_and!; try done. by exists up.
  - intros (ws & tok & gap & rest & -> & ? & ? & ? & (up & -> & ? & ?) & ->).
    destruct (p_line_caps (ws ++ tok ++ gap ++ (AT :: up) ++ SP :: rest)
      [(g_text, take_while dot rest); (g_tag, AT :: up); (1%nat, tok)])
      as [_ Hback].
    assert (Hc : caps <$> p_line (ws ++ tok ++ gap ++ (AT :: up) ++ SP :: rest)
                 = Some [(g_text, take_while dot rest); (g_tag, AT :: up);
                         (1%nat, tok)]).
    { apply Hback. by exists ws, tok, gap, up, rest. }
    destruct (p_line _) as [m|]; [|done]. simpl in Hc |- *.
    injection Hc as Hc. unfold group. by rewrite Hc.
Qed.

(** A match always carries both named groups. *)
Lemma search_groups line m :
  Re.search regex line = Some m →
  ∃ tag raw, group m g_tag = Some tag ∧ group m g_text = Some raw.
Proof.
  rewrite search_regex. intros Hp.
  assert (Hc : caps <$> p_line line = Some (caps m)) by by rewrite Hp.
  apply p_line_caps in Hc as (? & ? & ? & up & rest & _ & _ & _ & _ & _ & _ & Hc).
  unfold group. rewrite Hc. by eexists _, _.
Qed.

(** One turn of the loop of [search_file]. *)
Lemma scan_Line n line more acc :
  scan n (Line line more) acc =
  scan (N.succ n) more
    (acc ++ match line_groups line with
            | Some (tag, raw) => [(n, tag, strip raw)]
            | None => []
            end).
Proof.
  simpl. unfold line_groups.
  destruct (Re.search regex line) as [m|] eqn:Hs; simpl.
  - destruct (search_groups _ _ Hs) as (tag & raw & -> & ->). done.
  - by rewrite app_nil_r.
Qed.

(** ** Whole files *)

Lemma scan_collect n f acc :
  scan n f acc =
  if decodes f then
    if reads f then Ok (acc ++ collect n (lines_of f)) else Raise OSError
  else Raise UnicodeDecodeError.
Proof.
  revert n acc. induction f as [| | |l more IH]; intros n acc.
  - simpl. by rewrite app_nil_r.
  - done.
  - done.
  - rewrite scan_Line, IH. cbn [decodes reads lines_of collect].
    by rewrite app_assoc.
Qed.

Lemma collect_elem n ls k tag text :
  (k, tag, text) ∈ collect n ls →
  n ≤ k ∧ k < n + N.of_nat (length ls)
  ∧ ∃ line raw, ls !! N.to_nat (k - n) = Some line
      ∧ annotated_line line tag raw ∧ text = strip raw.
Proof.
  revert n. induction ls as [|l t IH]; intros n; simpl.
  - by intros ?%elem_of_nil.
  - intros [Hin|Hin]%elem_of_app.
    + destruct (line_groups l) as [[tag' raw]|] eqn:Hl.
      * apply list_elem_of_singleton in Hin. injection Hin as -> -> ->.
        split_and!; [lia..|]. exists l, raw.
        rewrite N.sub_diag. split_and!; try done. by apply line_groups_iff.
      * by apply elem_of_nil in Hin.
    + destruct (IH _ Hin) as (? & ? & line & raw & Hlk & ? & ?).
      split_and!; [lia..|]. exists line, raw. split_and!; try done.
      replace (N.to_nat (k - n)) with (S (N.to_nat (k - N.succ n))) by lia.
      done.
Qed.

Lemma collect_sorted n ls : StronglySorted N.lt (line_no <$> collect n ls).
Proof.
  revert n. induction ls as [|l t IH]; intros n; simpl; [constructor|].
  rewrite fmap_app. apply StronglySorted_app_2; [ | |apply IH].
  - intros a b Ha Hb. apply list_elem_of_fmap in Hb as ([[k tag] text] & -> & Hb).
    apply collect_elem in Hb as (? & _).
    destruct (line_groups l) as [[tag' raw]|]; simpl in Ha.
    + apply list_elem_of_singleton in Ha as ->. unfold line_no. simpl. lia.
    + by apply elem_of_nil in Ha.
  - destruct (line_groups l) as [[tag' raw]|]; simpl; repeat constructor.
Qed.

(** Every matching line is reported. *)
Lemma collect_complete n ls i line tag raw :
  ls !! i = Some line → annotated_line line tag raw →
  (n + N.of_nat i, tag, strip raw) ∈ collect n ls.
Proof.
  revert n i. induction ls as [|l t IH]; intros n i; [done|].
  destruct i as [|i]; intros Hl Ha; cbn [collect]; apply elem_of_app.
  - injection Hl as ->. apply line_groups_iff in Ha. rewrite Ha.
    left. replace (n + N.of_nat 0) with n by lia. by apply list_elem_of_singleton.
  - right. replace (n + N.of_nat (S i)) with (N.succ n + N.of_nat i) by lia.
    by apply IH.
Qed.

Lemma search_file_eq w path :
  search_file w path =
  match open w path with
  | Ok f =>
      if decodes f then
        if reads f
        then Ok (Some (MkSearchResult path (collect 1 (lines_of f))))
        else Raise OSError
      else Ok None
  | Raise e => Raise e
  end.
Proof.
  unfold search_file. destruct (open w path) as [f|e]; simpl; [|done].
  rewrite scan_collect. by destruct (decodes f), (reads f).
Qed.

(** ** Line Matcher: C1 *)

(** C1 (amended): a line yields an annotation exactly when it consists of
    one or more whitespace characters, a comment token among [//], [#],
    [*] and [/*], one or more whitespace characters, a tag ([@] and one or
    more letters [A-Z]), one space and free text; the annotation carries
    the tag and the stripped text.  A line that does not start with
    whitespace yields none. *)
Theorem line_matcher_shape (line : str) :
  ∃ o : option (str * str),
    (∀ n more acc,
        scan n (Line line more) acc =
        scan (N.succ n) more
          (acc ++ match o with
                  | Some (tag, raw) => [(n, tag, strip raw)]
                  | None => []
                  end))
    ∧ (∀ tag raw, o = Some (tag, raw) ↔ annotated_line line tag raw)
    ∧ (is_Some o → ∃ c t, line = c :: t ∧ isspace c = true).
Proof.
  exists (line_groups line). split_and!.
  - intros. apply scan_Line.
  - intros. apply line_groups_iff.
  - intros [[tag raw] Ho]. apply line_groups_iff in Ho
      as (ws & tok & gap & rest & -> & [Hne Hws] & _).
    destruct ws as [|c ws]; [done|]. apply Forall_cons in Hws as [Hc _].
    by exists c, (ws ++ tok ++ gap ++ tag ++ SP :: rest).
Qed.

(** C1 as stated fails: with two spaces between the comment token and the
    tag the line is still reported, though it is not of the stated
    shape. *)
Lemma line_matcher_wider_gap :
  scan 1 (Line (py " #  @TODO x") Eof) [] = Ok [(1, py "@TODO", py "x")]
  ∧ ¬ annotated_line_one_space (py " #  @TODO x").
Proof.
  split; [by vm_compute|].
  intros (ws & tok & g & tag & rest & Heq & [Hne Hws] & Htok & Hg
          & up & -> & _).
  destruct ws as [|c ws]; [done|]. injection Heq as <- Heq.
  destruct ws as [|c ws].
  - destruct Htok as [-> | [-> | [-> | ->]]]; simplify_eq/=.
  - injection Heq as <- Heq. apply Forall_cons in Hws as [_ Hws].
    apply Forall_cons in Hws as [Hc _]. done.
Qed.

(** ** Line Matcher: C9 *)

(** C9: in the report of a file, every annotation has the number of a
    physical line of the file, counted from 1, that line is an annotated
    line with that tag and that text once stripped, the tag is [@] and at
    least one letter [A-Z], and the line numbers are strictly ascending;
    the text can be empty. *)
Theorem annotations_well_formed :
  (∀ w path r,
      search_file w path = Ok (Some r) →
      ∃ f, open w path = Ok f
        ∧ StronglySorted N.lt (line_no <$> todos r)
        ∧ ∀ k tag text, (k, tag, text) ∈ todos r →
            1 ≤ k ∧ k ≤ N.of_nat (length (lines_of f))
            ∧ tag_token tag
            ∧ ∃ line raw,
                lines_of f !! (N.to_nat k - 1)%nat = Some line
                ∧ annotated_line line tag raw ∧ text = strip raw)
  ∧ (∃ f k tag, scan 1 f [] = Ok [(k, tag, [])]).
Proof.
  split.
  - intros w path r. rewrite search_file_eq.
    destruct (open w path) as [f|e]; [|done].
    destruct (decodes f); [|done]. destruct (reads f); [|done].
    intros [= <-]. exists f. simpl.
    split_and!; [done|apply collect_sorted|].
    intros k tag text (? & ? & line & raw & Hl & Ha & ->)%collect_elem.
    split_and!; [done|lia| |].
    + by destruct Ha as (? & ? & ? & ? & _ & _ & _ & _ & ? & _).
    + exists line, raw. replace (N.to_nat k - 1)%nat with (N.to_nat (k - 1)) by lia.
      done.
  - exists (Line (py "  # @TODO   ") Eof), 1, (py "@TODO"). by vm_compute.
Qed.

Lemma annotations_well_formed_witness :
  search_file (sample ∅) notes_path
  = Ok (Some (MkSearchResult notes_path
                [(1, py "@TODO", py "fix this later");
                 (3, py "@FIXME", py "broken on windows")]))
  ∧ ∃ f, open (sample ∅) notes_path = Ok f
      ∧ StronglySorted N.lt [1; 3]
      ∧ ∀ k tag text,
          (k, tag, text) ∈ [(1, py "@TODO", py "fix this later");
                            (3, py "@FIXME", py "broken on windows")] →
          1 ≤ k ∧ k ≤ N.of_nat (length (lines_of f))
          ∧ tag_token tag
          ∧ ∃ line raw,
              lines_of f !! (N.to_nat k - 1)%nat = Some line
              ∧ annotated_line line tag raw ∧ text = strip raw.
Proof.
  assert (H : search_file (sample ∅) notes_path
    = Ok (Some (MkSearchResult notes_path
                  [(1, py "@TODO", py "fix this later");
                   (3, py "@FIXME", py "broken on windows")])))
    by (vm_compute; reflexivity).
  split; [exact H|].
  exact (proj1 annotations_well_formed _ _ _ H).
Defined.

(** ** The phases of [main] *)

Lemma main_eq w c :
  main w c =
  (paths ← scan_roots w;
   files ← pool_map (find_files w) paths;
   match_and_report w (concat files)) c.
Proof.
  unfold main, scan_roots, mbind, io_bind, lift.
  by destruct (current_git_repo w) as [[repo|]|e].
Qed.





Lemma split_nonempty sep s : split sep s ≠ [].
Proof.
  destruct s as [|c t]; simpl; [done|].
  destruct (c =? sep); [done|]. by destruct (split sep t).
Qed.

Lemma split_join sep s : join [sep] (split sep s) = s.
Proof.
  induction s as [|c t IH]; [done|]. simpl.
  pose proof (split_nonempty sep t) as Hne.
  destruct (N.eqb_spec c sep) as [->|].
  - destruct (split sep t) as [|w ws]; [done|]. simpl in *. by rewrite <- IH.
  - destruct (split sep t) as [|w [|w' ws]]; [done|..]; simpl in *;
      by rewrite <- IH.
Qed.

Lemma split_no_sep sep s : Forall (λ seg, sep ∉ seg) (split sep s).
Proof.
  induction s as [|c t IH]; simpl.
  - repeat constructor. set_solver.
  - destruct (N.eqb_spec c sep) as [->|].
    + constructor; [set_solver|done].
    + destruct (split sep t) as [|w ws]; [repeat constructor; set_solver|].
      apply Forall_cons in IH as [? ?]. constructor; [set_solver|done].
Qed.

Lemma empty_path_missing w : os_path_exists w [] = false.
Proof. reflexivity. Qed.

Lemma filter_drops_empty w (segs : list str) :
  List.filter (os_path_exists w) segs
  = List.filter (os_path_exists w)
      (List.filter (λ seg, negb (bool_decide (seg = []))) segs).
Proof.
  induction segs as [|seg segs IH]; [done|].
  simpl. case_bool_decide as Hseg; simpl.
  - subst seg. by rewrite empty_path_missing.
  - by rewrite IH.
Qed.

(** ** Path Resolver: C3 *)

(** C3: outside any source-control tree and without [TODO_PATH], the
    program writes [ERROR: TODO_PATH not set.] to the error stream and
    exits with code 1, having printed nothing to stdout and handed
    nothing to the pool. *)
Theorem missing_configuration (w : World) :
  current_git_repo w = Ok None →
  environ w !! TODO_PATH = None →
  run_program w
  = MkOutcome [] (py "ERROR: TODO_PATH not set." ++ [LF]) [] 1 None.
Proof.
  intros Hrepo Henv. unfold run_program, main, mbind at 1, io_bind at 1, lift.
  rewrite Hrepo. unfold todo_paths. rewrite Henv. reflexivity.
Qed.

Lemma missing_configuration_witness :
  current_git_repo (sample ∅) = Ok None
  ∧ environ (sample ∅) !! TODO_PATH = None
  ∧ run_program (sample ∅)
    = MkOutcome [] (py "ERROR: TODO_PATH not set." ++ [LF]) [] 1 None.
Proof.
  assert (H1 : current_git_repo (sample ∅) = Ok None)
    by (vm_compute; reflexivity).
  assert (H2 : environ (sample ∅) !! TODO_PATH = None) by (vm_compute; reflexivity).
  split_and!; [exact H1|exact H2|].
  exact (missing_configuration (sample ∅) H1 H2).
Defined.

(** ** Path Resolver: C6 *)

(** C6: with [TODO_PATH] set to [v], [todo_paths] returns the segments
    of [v] between colons for which [os.path.exists] holds, in the order
    of [v], repeated as often as they occur; nothing is printed and
    nothing is raised for the segments left out.  These are the roots of
    the run whenever the working directory is in no source-control
    tree. *)
Theorem todo_paths_set (w : World) (v : str) (c : effects) :
  environ w !! TODO_PATH = Some v →
  todo_paths w c
  = (c, Ok (Path_of <$> List.filter (os_path_exists w) (split COLON v)))
  ∧ join [COLON] (split COLON v) = v
  ∧ Forall (λ seg, COLON ∉ seg) (split COLON v)
  ∧ (current_git_repo w = Ok None →
     scan_roots w c
     = (c, Ok (Path_of <$> List.filter (os_path_exists w) (split COLON v)))).
Proof.
  intros Henv.
  assert (Htp : todo_paths w c
    = (c, Ok (Path_of <$> List.filter (os_path_exists w) (split COLON v)))).
  { unfold todo_paths. rewrite Henv. by destruct c. }
  split_and!.
  - done.
  - apply split_join.
  - apply split_no_sep.
  - intros Hrepo. unfold scan_roots, mbind at 1, io_bind, lift.
    by rewrite Hrepo.
Qed.

Lemma todo_paths_set_witness :
  environ (sample two_roots) !! TODO_PATH = Some (py "/home/u/proj:/b:/home/u/proj")
  ∧ todo_paths (sample two_roots) (MkEffects [] [] [])
    = (MkEffects [] [] [],
       Ok [Path_of (py "/home/u/proj"); Path_of (py "/home/u/proj")]).
Proof.
  assert (H : environ (sample two_roots) !! TODO_PATH
              = Some (py "/home/u/proj:/b:/home/u/proj"))
    by (vm_compute; reflexivity).
  split; [exact H|].
  exact (proj1 (todo_paths_set (sample two_roots) _ (MkEffects [] [] []) H)).
Defined.

(** ** Path Resolver: C10 *)

(** C10: the empty path does not exist, so empty segments of [TODO_PATH]
    never become roots; and when no segment exists and no source-control
    root is found, the program hands nothing to the pool, prints nothing
    and exits with code 0. *)
Theorem empty_segments (w : World) (v : str) :
  environ w !! TODO_PATH = Some v →
  os_path_exists w [] = false
  ∧ (∀ c, todo_paths w c
          = (c, Ok (Path_of <$>
                    List.filter (os_path_exists w)
                      (List.filter (λ seg, negb (bool_decide (seg = [])))
                         (split COLON v)))))
  ∧ (current_git_repo w = Ok None →
     Forall (λ seg, os_path_exists w seg = false) (split COLON v) →
     run_program w = MkOutcome [] [] [] 0 None).
Proof.
  intros Henv. split_and!.
  - done.
  - intros c. unfold todo_paths. rewrite Henv, filter_drops_empty.
    by destruct c.
  - intros Hrepo Hnone.
    unfold run_program, main, mbind at 1, io_bind at 1, lift.
    rewrite Hrepo. unfold todo_paths. rewrite Henv. simpl.
    replace (List.filter (os_path_exists w) (split COLON v)) with (@nil str).
    + reflexivity.
    + induction Hnone as [|seg segs Hseg _ IH]; [done|]. simpl. by rewrite Hseg.
Qed.

Lemma empty_segments_witness :
  environ (sample only_colons) !! TODO_PATH = Some (py "::/nowhere")
  ∧ current_git_repo (sample only_colons) = Ok None
  ∧ Forall (λ seg, os_path_exists (sample only_colons) seg = false)
      (split COLON (py "::/nowhere"))
  ∧ run_program (sample only_colons) = MkOutcome [] [] [] 0 None.
Proof.
  assert (H1 : environ (sample only_colons) !! TODO_PATH = Some (py "::/nowhere"))
    by (vm_compute; reflexivity).
  assert (H2 : current_git_repo (sample only_colons) = Ok None)
    by (vm_compute; reflexivity).
  assert (H3 : Forall (λ seg, os_path_exists (sample only_colons) seg = false)
                 (split COLON (py "::/nowhere")))
    by (repeat constructor).
  split_and!; [exact H1|exact H2|exact H3|].
  exact (proj2 (proj2 (empty_segments _ _ H1)) H2 H3).
Defined.

(** ** Path Resolver: C5 *)




(** ** Reporter: C8 *)

Lemma join_LF (ls : list str) :
  ls ≠ [] → join [LF] ls ++ [LF] = concat ((λ l, l ++ [LF]) <$> ls).
Proof.
  induction ls as [|l [|l' ls] IH]; intros Hne; [done| |].
  - simpl. by rewrite app_nil_r.
  - change (join [LF] (l :: l' :: ls)) with (l ++ [LF] ++ join [LF] (l' :: ls)).
    rewrite fmap_cons, concat_cons, <- IH by done.
    by rewrite <- !app_assoc.
Qed.

Lemma format_todo_line name t : format_todo name t ++ [LF] = annotation_line name t.
Proof.
  destruct t as [[line tag] text]. unfold format_todo, annotation_line.
  cbn [fst snd]. by rewrite <- !app_assoc.
Qed.

Lemma report_text_block name r :
  todos r ≠ [] → report_text name r ++ [LF] = block name r.
Proof.
  intros Hne. unfold report_text, block. rewrite join_LF.
  - rewrite <- list_fmap_compose. f_equal.
    apply list_fmap_ext. intros _ t _. apply format_todo_line.
  - by destruct (todos r).
Qed.

(** Printing one report that has annotations. *)
Lemma print_report w r c :
  todos r ≠ [] →
  (s ← lift (SearchResult_str w r); print w s) c =
  match printable w r with
  | Some name =>
      (MkEffects (stdout c ++ block name r) (stderr c) (submitted c), Ok ())
  | None => (c, Raise ValueError)
  end.
Proof.
  intros Hne. unfold SearchResult_str, printable, mbind, io_bind, lift, print.
  destruct (Path_relative_to (file r) (home w)) as [name|e] eqn:Hrel; simpl.
  - fold (report_text (Path_str name) r).
    fold (encodable w (report_text (Path_str name) r)).
    destruct (encodable _ _); [|done]. by rewrite report_text_block.
  - unfold Path_relative_to in Hrel. case_decide; [|congruence].
    destruct (strip_prefix _ _); congruence.
Qed.

Lemma relative_to_ValueError p q e : Path_relative_to p q = Raise e → e = ValueError.
Proof.
  unfold Path_relative_to. case_decide; [|congruence].
  destruct (strip_prefix _ _); congruence.
Qed.

Lemma strip_prefix_Some pre l r : strip_prefix pre l = Some r ↔ l = pre ++ r.
Proof.
  revert l. induction pre as [|a pre IH]; intros l; simpl.
  - split; congruence.
  - destruct l as [|b l]; [done|]. case_decide as Hab.
    + subst b. rewrite IH. split; congruence.
    + split; [done|]. congruence.
Qed.

Lemma relative_to_Ok p q name :
  Path_relative_to p q = Ok name ↔
  anchor p = anchor q ∧ parts p = parts q ++ parts name ∧ anchor name = [].
Proof.
  unfold Path_relative_to. case_decide as Ha.
  - destruct (strip_prefix (parts q) (parts p)) as [r|] eqn:Hs.
    + apply strip_prefix_Some in Hs. split.
      * intros [= <-]. done.
      * intros (_ & Hp & Hn). destruct name as [a ps]. simpl in *. subst a.
        rewrite Hs in Hp. by apply app_inv_head in Hp as ->.
    + split; [done|]. intros (_ & Hp & _).
      apply strip_prefix_Some in Hp. congruence.
  - split; [done|]. by intros [? _].
Qed.

Lemma report_printed w rs c :
  Forall (λ r, todos r ≠ []) rs →
  report w rs c =
  (MkEffects (stdout c ++ (printed w rs).1) (stderr c) (submitted c),
   if (printed w rs).2 then Ok () else Raise ValueError).
Proof.
  intros Hne. revert c. induction Hne as [|r rs Hr _ IH]; intros c.
  - destruct c. simpl. by rewrite app_nil_r.
  - unfold report in *. cbn [for_each printed].
    unfold mbind at 1, io_bind at 1. rewrite (print_report w r c Hr).
    destruct (printable w r) as [name|].
    + rewrite IH. simpl. by rewrite app_assoc.
    + destruct c. simpl. by rewrite app_nil_r.
Qed.

Lemma printed_all w rs :
  (printed w rs).2 = true ↔
  Forall (λ r, ∃ name, Path_relative_to (file r) (home w) = Ok name
               ∧ encodable w (report_text (Path_str name) r) = true) rs.
Proof.
  induction rs as [|r rs IH]; simpl.
  - split; [constructor|done].
  - unfold printable.
    destruct (Path_relative_to (file r) (home w)) as [name|e] eqn:Hrel.
    + destruct (encodable w _) eqn:Henc; simpl.
      * rewrite IH. split; [|by intros [_ ?]%Forall_cons].
        intros Hrs. constructor; [by exists name|done].
      * split; [done|]. intros [(name' & Heq & ?) _]%Forall_cons.
        congruence.
    + split; [done|]. intros [(name & ? & _) _]%Forall_cons. congruence.
Qed.

(** The reports printed are those before the first one that cannot be. *)
Lemma printed_prefix w rs :
  ∃ done rest,
    rs = done ++ rest
    ∧ Forall2 (λ r name, printable w r = Some name) done (shown w rs).*1
    ∧ (shown w rs).*2 = done
    ∧ (printed w rs).1 = concat ((λ nr, block nr.1 nr.2) <$> shown w rs)
    ∧ match rest with
      | [] => (printed w rs).2 = true
      | r :: _ => printable w r = None ∧ (printed w rs).2 = false
      end.
Proof.
  induction rs as [|r rs (done & rest & Hrs & Hdone & Hsh & Hout & Hrest)].
  - exists [], []. split_and!; [done|constructor|done..].
  - simpl. destruct (printable w r) as [name|] eqn:Hr.
    + exists (r :: done), rest. simpl. split_and!.
      * by rewrite Hrs at 1.
      * by constructor.
      * by f_equal.
      * by f_equal.
      * done.
    + exists [], (r :: rs). split_and!; [done|constructor|done..].
Qed.

(** C8 (amended): for the reports it is given and in their order, the
    reporter writes one line per annotation: the tag left-justified in 7
    columns, a space, the path of the file relative to the home
    directory, a colon, the line number left-justified in 4 columns, a
    space and the text.  It stops with an error ([ValueError], of which
    [UnicodeEncodeError] is a kind) at the first report whose file is not
    below the home directory or whose text the encoding of stdout does
    not take; the reports before that one have been printed, that one
    and those after it are not. *)
Theorem reporter_output (w : World) (results : list SearchResult) (c : effects) :
  Forall (λ r, todos r ≠ []) results →
  report w results c
  = (MkEffects (stdout c ++ (printed w results).1) (stderr c) (submitted c),
     if (printed w results).2 then Ok () else Raise ValueError)
  ∧ (∃ done rest,
       results = done ++ rest
       ∧ Forall2 (λ r name, printable w r = Some name) done
           (shown w results).*1
       ∧ (shown w results).*2 = done
       ∧ (printed w results).1
         = concat ((λ nr, concat (annotation_line nr.1 <$> todos nr.2))
                   <$> shown w results)
       ∧ match rest with
         | [] => (printed w results).2 = true
         | r :: _ => printable w r = None ∧ (printed w results).2 = false
         end)
  ∧ (∀ r name,
       printable w r = Some name ↔
       ∃ rel, Path_relative_to (file r) (home w) = Ok rel
         ∧ name = Path_str rel
         ∧ encodable w (join [LF] (format_todo name <$> todos r)) = true)
  ∧ ((printed w results).2 = true ↔
     Forall (λ r, ∃ name, Path_relative_to (file r) (home w) = Ok name
                  ∧ encodable w (report_text (Path_str name) r) = true)
            results)
  ∧ (∀ p name,
       Path_relative_to p (home w) = Ok name ↔
       anchor p = anchor (home w)
       ∧ parts p = parts (home w) ++ parts name ∧ anchor name = [])
  ∧ (∀ n s, ljust n s = s ++ replicate (n - length s) SP
            ∧ length (ljust n s) = (n `max` length s)%nat).
Proof.
  intros Hne. split_and!.
  - by apply report_printed.
  - apply printed_prefix.
  - intros r name. unfold printable, report_text.
    destruct (Path_relative_to (file r) (home w)) as [rel|e].
    + destruct (encodable w _) eqn:Henc.
      * split; [intros [= <-]; by exists rel|].
        intros (rel' & Heq & -> & _). congruence.
      * split; [done|]. intros (rel' & Heq & -> & ?). congruence.
    + split; [done|]. by intros (rel' & ? & _).
  - apply printed_all.
  - intros. apply relative_to_Ok.
  - intros n s. split; [done|]. unfold ljust.
    rewrite length_app, length_replicate. lia.
Qed.

Lemma reporter_output_witness :
  Forall (λ r, todos r ≠ []) [notes_report; outside_report; notes_report]
  ∧ report (sample ∅) [notes_report; outside_report; notes_report]
      (MkEffects [] [] [])
    = (MkEffects
         (py "@TODO   proj/notes.txt:1    fix this later" ++ [LF]
          ++ py "@FIXME  proj/notes.txt:3    broken on windows" ++ [LF])
         [] [],
       Raise ValueError).
Proof.
  assert (H : Forall (λ r, todos r ≠ [])
                [notes_report; outside_report; notes_report])
    by (repeat constructor; done).
  split; [exact H|].
  exact (proj1 (reporter_output (sample ∅) _ (MkEffects [] [] []) H)).
Defined.

(** C8 as stated fails: the three files of [/home/u/proj] lie below the
    home directory and each has a report that is kept, yet only the first
    is printed.  The name of the second holds a lone surrogate, which the
    codec of stdout does not take: [print] raises [UnicodeEncodeError] at
    its report, and the run ends there with exit code 1, the third report
    unprinted as well. *)
Lemma unencodable_report_stops :
  find_files odd proj_path
  = Ok [Path_of (py "/home/u/proj/a.py"); odd_path;
        Path_of (py "/home/u/proj/c.py")]
  ∧ mapM (search_file odd)
      [Path_of (py "/home/u/proj/a.py"); odd_path;
       Path_of (py "/home/u/proj/c.py")]
    = Ok [Some (one_todo (Path_of (py "/home/u/proj/a.py")) (py "a"));
          Some (one_todo odd_path (py "b"));
          Some (one_todo (Path_of (py "/home/u/proj/c.py")) (py "c"))]
  ∧ Path_relative_to (Path_of (py "/home/u/proj/a.py")) (home odd)
    = Ok (MkPath [] [py "proj"; py "a.py"])
  ∧ Path_relative_to odd_path (home odd) = Ok (MkPath [] [py "proj"; odd_name])
  ∧ Path_relative_to (Path_of (py "/home/u/proj/c.py")) (home odd)
    = Ok (MkPath [] [py "proj"; py "c.py"])
  ∧ stdout_encodable odd 56553 = false
  ∧ report odd
      [one_todo (Path_of (py "/home/u/proj/a.py")) (py "a");
       one_todo odd_path (py "b");
       one_todo (Path_of (py "/home/u/proj/c.py")) (py "c")]
      (MkEffects [] [] [])
    = (MkEffects (py "@TODO   proj/a.py:1    a" ++ [LF]) [] [],
       Raise ValueError)
  ∧ out (run_program odd) = py "@TODO   proj/a.py:1    a" ++ [LF]
  ∧ exit_code (run_program odd) = 1%Z
  ∧ traceback (run_program odd) = Some ValueError.
Proof. split_and!; by vm_compute. Qed.

(** ** Results kept and printed *)

Lemma mapM_Ok {A B} (f : A → res B) l ys :
  mapM f l = Ok ys → Forall2 (λ x y, f x = Ok y) l ys.
Proof.
  revert ys. induction l as [|x l IH]; intros ys; simpl.
  - intros [= <-]. constructor.
  - destruct (f x) as [y|e] eqn:Hx; [|done]. simpl.
    destruct (mapM f l) as [ys'|e]; [|done]. simpl.
    intros [= <-]. constructor; [done|by apply IH].
Qed.

Lemma mapM_app {A B} (f : A → res B) l1 l2 :
  mapM f (l1 ++ l2) = (ys1 ← mapM f l1; ys2 ← mapM f l2; Ok (ys1 ++ ys2)).
Proof.
  induction l1 as [|x l1 IH]; simpl.
  - by destruct (mapM f l2).
  - destruct (f x) as [y|e]; [|done]. simpl. rewrite IH.
    destruct (mapM f l1) as [ys1|e]; [|done]. simpl.
    by destruct (mapM f l2).
Qed.

Lemma search_file_file w path r : search_file w path = Ok (Some r) → file r = path.
Proof.
  rewrite search_file_eq. destruct (open w path); [|done].
  destruct (decodes _); [|done]. destruct (reads _); [|done].
  by intros [= <-].
Qed.

(** The reports kept come from the files searched and have annotations. *)
Lemma kept_reports w files found :
  mapM (search_file w) files = Ok found →
  Forall (λ r, todos r ≠ [] ∧ file r ∈ files
               ∧ search_file w (file r) = Ok (Some r))
         (omap keep found).
Proof.
  intros H%mapM_Ok. induction H as [|path o files found Hp _ IH]; [constructor|].
  simpl. assert (IH' : Forall (λ r, todos r ≠ [] ∧ file r ∈ path :: files
      ∧ search_file w (file r) = Ok (Some r)) (omap keep found)).
  { eapply Forall_impl; [exact IH|]. intros r (? & ? & ?).
    split_and!; [done| |done]. by apply list_elem_of_further. }
  destruct o as [r|]; simpl; [|done].
  case_bool_decide as Hr; [done|]. constructor; [|done].
  pose proof (search_file_file _ _ _ Hp) as Hf.
  split_and!; [done| |by rewrite Hf]. rewrite Hf. by apply list_elem_of_here.
Qed.

Lemma printed_shown w rs :
  (printed w rs).1 = concat ((λ nr, block nr.1 nr.2) <$> shown w rs).
Proof.
  induction rs as [|r rs IH]; [done|]. simpl.
  destruct (printable w r); [|done]. simpl. by rewrite IH.
Qed.

Lemma shown_sub w rs nr : nr ∈ shown w rs → nr.2 ∈ rs.
Proof.
  induction rs as [|r rs IH]; simpl; [by intros ?%elem_of_nil|].
  destruct (printable w r); [|by intros ?%elem_of_nil].
  intros [->|?]%elem_of_cons; [by apply list_elem_of_here|].
  apply list_elem_of_further. by apply IH.
Qed.

Lemma match_and_report_eq w files c :
  match_and_report w files c =
  match mapM (search_file w) files with
  | Ok found =>
      (MkEffects (stdout c ++ (printed w (omap keep found)).1) (stderr c)
         (submitted c ++ files),
       if (printed w (omap keep found)).2 then Ok () else Raise ValueError)
  | Raise e => (MkEffects (stdout c) (stderr c) (submitted c ++ files), Raise e)
  end.
Proof.
  unfold match_and_report, pool_map, mbind at 1, io_bind at 1.
  destruct (mapM (search_file w) files) as [found|e] eqn:Hm; [|done].
  rewrite report_printed; [done|].
  eapply Forall_impl; [by apply kept_reports|]. by intros r [? _].
Qed.

(** Nothing before the report phase writes to stdout. *)
Lemma scan_roots_stdout w c : stdout (scan_roots w c).1 = stdout c.
Proof.
  unfold scan_roots, mbind at 1, io_bind at 1, lift.
  destruct (current_git_repo w) as [[repo|]|e]; [done| |done].
  unfold todo_paths. destruct (environ w !! TODO_PATH); by destruct c.
Qed.

Lemma run_program_out w : out (run_program w) = stdout (main w (MkEffects [] [] [])).1.
Proof.
  unfold run_program. destruct (main w _) as [c [?|e]]; [done|]. by destruct e.
Qed.

Lemma main_stdout w :
  ∃ rs, stdout (main w (MkEffects [] [] [])).1 = (printed w rs).1
    ∧ Forall (λ r, todos r ≠ [] ∧ search_file w (file r) = Ok (Some r)) rs.
Proof.
  rewrite main_eq. pose proof (scan_roots_stdout w (MkEffects [] [] [])) as H0.
  unfold mbind at 1, io_bind at 1.
  destruct (scan_roots w _) as [c1 [paths|e]]; simpl in H0.
  2:{ exists []. by split. }
  unfold mbind at 1, io_bind at 1, pool_map at 1.
  destruct (mapM (find_files w) paths) as [files|e].
  2:{ exists []. by split. }
  rewrite match_and_report_eq.
  destruct (mapM (search_file w) (concat files)) as [found|e] eqn:Hm.
  2:{ exists []. by split. }
  exists (omap keep found). simpl. rewrite H0. split; [done|].
  eapply Forall_impl; [by apply kept_reports|]. by intros r (? & _ & ?).
Qed.

(** ** Dispatcher: C4 *)

(** C4: stdout is made of the blocks of reports that each hold at least
    one annotation and are what [search_file] returns for their file; so
    a file for which [search_file] returns nothing (it does not decode)
    or an empty report has no block in the output. *)
Theorem no_empty_reports (w : World) :
  ∃ sh : list (str * SearchResult),
    out (run_program w) = concat ((λ nr, block nr.1 nr.2) <$> sh)
    ∧ Forall (λ nr, todos nr.2 ≠ []
                    ∧ search_file w (file nr.2) = Ok (Some nr.2)) sh
    ∧ ∀ f,
        (search_file w f = Ok None
         ∨ ∃ r, search_file w f = Ok (Some r) ∧ todos r = []) →
        Forall (λ nr, file nr.2 ≠ f) sh.
Proof.
  destruct (main_stdout w) as (rs & Hout & Hrs).
  assert (Hsh : Forall (λ nr, todos nr.2 ≠ []
                    ∧ search_file w (file nr.2) = Ok (Some nr.2)) (shown w rs)).
  { apply Forall_forall. intros nr Hnr%shown_sub.
    by apply (proj1 (Forall_forall _ _) Hrs). }
  exists (shown w rs). split_and!.
  - by rewrite run_program_out, Hout, printed_shown.
  - done.
  - intros f Hf. eapply Forall_impl; [exact Hsh|].
    intros nr [Hne Hs] <-. destruct Hf as [Hf|(r & Hf & Hr)]; congruence.
Qed.

(** ** Dispatcher: C2 *)

(** C2 (amended): a candidate file whose content does not decode is
    skipped in silence: [search_file] returns [None] for it, and matching
    and reporting a list of candidates that contains it writes the same
    to stdout and stderr and ends the same way as for the list without
    it.  A candidate file that cannot be opened is not handled: the error
    of [open] leaves [search_file] and ends the run, and nothing is
    printed for any file. *)
Theorem undecodable_skipped (w : World) (path : Path) :
  (∀ f, open w path = Ok f → decodes f = false →
     search_file w path = Ok None
     ∧ ∀ before after c,
         stdout (match_and_report w (before ++ path :: after) c).1
         = stdout (match_and_report w (before ++ after) c).1
         ∧ stderr (match_and_report w (before ++ path :: after) c).1
           = stderr (match_and_report w (before ++ after) c).1
         ∧ (match_and_report w (before ++ path :: after) c).2
           = (match_and_report w (before ++ after) c).2)
  ∧ (∀ e, open w path = Raise e →
     search_file w path = Raise e
     ∧ ∀ before after c found,
         mapM (search_file w) before = Ok found →
         stdout (match_and_report w (before ++ path :: after) c).1 = stdout c
         ∧ (match_and_report w (before ++ path :: after) c).2 = Raise e).
Proof.
  split.
  - intros f Hopen Hdec.
    assert (Hnone : search_file w path = Ok None)
      by (by rewrite search_file_eq, Hopen, Hdec).
    split; [done|]. intros before after c.
    rewrite !match_and_report_eq, !mapM_app. simpl. rewrite Hnone. simpl.
    destruct (mapM (search_file w) before) as [ys1|e]; [|done]. simpl.
    destruct (mapM (search_file w) after) as [ys2|e]; [|done]. simpl.
    by rewrite !omap_app.
  - intros e Hopen.
    assert (Hraise : search_file w path = Raise e)
      by (by rewrite search_file_eq, Hopen).
    split; [done|]. intros before after c found Hb.
    rewrite match_and_report_eq, mapM_app, Hb. simpl. by rewrite Hraise.
Qed.

Lemma undecodable_skipped_witness :
  (open (sample ∅) blob_path = Ok (Line (py " # @TODO lost" ++ [LF]) BadBytes)
   ∧ search_file (sample ∅) blob_path = Ok None)
  ∧ (open locked secret_path = Raise OSError
     ∧ search_file locked secret_path = Raise OSError).
Proof.
  assert (H1 : open (sample ∅) blob_path
               = Ok (Line (py " # @TODO lost" ++ [LF]) BadBytes))
    by (vm_compute; reflexivity).
  assert (H2 : open locked secret_path = Raise OSError)
    by (vm_compute; reflexivity).
  split; (split; [eassumption|]).
  - exact (proj1 (proj1 (undecodable_skipped _ _) _ H1 eq_refl)).
  - exact (proj1 (proj2 (undecodable_skipped _ _) _ H2)).
Defined.

(** C2 as stated fails for a file that cannot be opened: the run ends
    with the uncaught [OSError] and exit code 1, and the annotations of
    the readable file next to it are not printed. *)
Lemma unreadable_file_is_fatal :
  find_files locked (Path_of (py "/home/u/proj"))
  = Ok [Path_of (py "/home/u/proj/notes.txt"); secret_path]
  ∧ open locked secret_path = Raise OSError
  ∧ search_file locked (Path_of (py "/home/u/proj/notes.txt"))
    = Ok (Some (MkSearchResult (Path_of (py "/home/u/proj/notes.txt"))
                  [(1, py "@TODO", py "fix this later");
                   (3, py "@FIXME", py "broken on windows")]))
  ∧ traceback (run_program locked) = Some OSError
  ∧ exit_code (run_program locked) = 1%Z
  ∧ out (run_program locked) = [].
Proof. split_and!; by vm_compute. Qed.

(** ** Walking the tree *)

Lemma namei_nil root links dir :
  namei root links dir [] =
  match get root dir with
  | Some n => Found (links, dir, n)
  | None => Absent
  end.
Proof. by destruct links. Qed.

Lemma namei_cons root links dir c cs :
  namei root links dir (c :: cs) =
  if bool_decide (c = []) then namei root links dir cs
  else
    match get root dir with
    | Some (Dir _ x es) =>
        if negb x then Refused
        else if bool_decide (c = DOT) then namei root links dir cs
        else if bool_decide (c = DOTDOT) then namei root links (removelast dir) cs
        else if (NAME_MAX <? fs_len c)%nat then Refused
        else
          match lookup_entry c es with
          | None => Absent
          | Some (Symlink t) =>
              match links with
              | O => Absent
              | S links' =>
                  if bool_decide (t = []) then Absent
                  else namei root links' (if is_absolute t then [] else dir)
                         (split SLASH t ++ cs)
              end
          | Some (Dir _ _ _) => namei root links (dir ++ [c]) cs
          | Some n =>
              match cs with
              | [] => Found (links, dir ++ [c], n)
              | _ :: _ => Absent
              end
          end
    | _ => Absent
    end.
Proof. by destruct links. Qed.

Lemma get_snoc root d r x es c :
  get root d = Some (Dir r x es) → get root (d ++ [c]) = lookup_entry c es.
Proof.
  revert root. induction d as [|c' d IH]; intros root; simpl.
  - intros [= ->]. by destruct (lookup_entry c es).
  - destruct root as [|r' x' es'| |]; try done.
    destruct (lookup_entry c' es'); [apply IH|done].
Qed.

(** Resolution ends at a place of the tree and returns what is there. *)
Lemma namei_get root links dir comps l d n :
  namei root links dir comps = Found (l, d, n) → get root d = Some n.
Proof.
  revert dir comps. induction links as [|links IHl]; intros dir comps;
    revert dir; induction comps as [|c cs IHc]; intros dir.
  1,3: rewrite namei_nil; destruct (get root dir) eqn:Hg; [|done];
       by intros [= <- <- <-].
  all: rewrite namei_cons;
    destruct (bool_decide (c = [])); [apply IHc|];
    destruct (get root dir) as [[|r x es| |]|] eqn:Hd; try done;
    destruct x; cbn [negb]; [|done];
    destruct (bool_decide (c = DOT)); [apply IHc|];
    destruct (bool_decide (c = DOTDOT)); [apply IHc|];
    destruct (NAME_MAX <? fs_len c)%nat; [done|];
    rewrite <- (get_snoc _ _ _ _ _ c Hd);
    destruct (get root (dir ++ [c])) as [[| |t|]|] eqn:Hg; try done;
    try (destruct cs; [by intros [= <- <- <-]|done]);
    try apply IHc.
  destruct (bool_decide (t = [])); [done|]. apply IHl.
Qed.

(** Resolution is done component by component: once a prefix of the
    path has led to a directory, the rest is resolved from there with the
    links that are left. *)
Lemma namei_app root links dir comps cs l d r x es :
  namei root links dir comps = Found (l, d, Dir r x es) →
  namei root links dir (comps ++ cs) = namei root l d cs.
Proof.
  revert dir comps. induction links as [|links IHl]; intros dir comps;
    revert dir; induction comps as [|c cs0 IHc]; intros dir.
  1,3: rewrite namei_nil; destruct (get root dir) eqn:Hg; [|done];
       by intros [= <- <- ?].
  all: rewrite <- app_comm_cons, !namei_cons;
    destruct (bool_decide (c = [])); [apply IHc|];
    destruct (get root dir) as [[|r0 x0 es0| |]|] eqn:Hd; try done;
    destruct x0; cbn [negb]; [|done];
    destruct (bool_decide (c = DOT)); [apply IHc|];
    destruct (bool_decide (c = DOTDOT)); [apply IHc|];
    destruct (NAME_MAX <? fs_len c)%nat; [done|];
    destruct (lookup_entry c es0) as [[| |t|]|]; try done;
    try (destruct cs0; done);
    try apply IHc.
  destruct (bool_decide (t = [])); [done|]. rewrite app_assoc. apply IHl.
Qed.

Lemma wf_lookup_entry es name n :
  forallb (λ e, wf_node e.2) es = true →
  lookup_entry name es = Some n → wf_node n = true.
Proof.
  induction es as [|[name' x] es IH]; simpl; [done|].
  intros [Hx Hes]%andb_prop. case_decide; [by intros [= <-]|by apply IH].
Qed.

Lemma valid_lookup_entry es name n :
  forallb valid_name es.*1 = true →
  lookup_entry name es = Some n → valid_name name = true.
Proof.
  induction es as [|[name' x] es IH]; simpl; [done|].
  intros [Hx Hes]%andb_prop. case_decide; [by subst|by apply IH].
Qed.

Lemma wf_get root d n :
  wf_node root = true → get root d = Some n → wf_node n = true.
Proof.
  revert root. induction d as [|c d IH]; intros root Hwf; simpl.
  - by intros [= <-].
  - destruct root as [|r x es| |]; try done.
    destruct (lookup_entry c es) as [n'|] eqn:Hl; [|done].
    apply IH. simpl in Hwf. apply andb_prop in Hwf as [_ Hes].
    by eapply wf_lookup_entry.
Qed.

Lemma locate_get w s l d n : locate w s = Found (l, d, n) → get (root w) d = Some n.
Proof.
  unfold locate. case_bool_decide; [done|].
  destruct (PATH_MAX <=? fs_len s)%nat; [done|]. apply namei_get.
Qed.

Lemma stat_locate w s n :
  stat w s = Found n ↔ ∃ l d, locate w s = Found (l, d, n).
Proof.
  unfold stat. destruct (locate w s) as [[[l d] n']| |]; simpl.
  - split; [intros [= <-]; eauto|]. by intros (? & ? & [= _ _ <-]).
  - split; [done|]. by intros (? & ? & ?).
  - split; [done|]. by intros (? & ? & ?).
Qed.

Lemma stat_wf w s n : wf_node (root w) = true → stat w s = Found n → wf_node n = true.
Proof.
  intros Hwf (l & d & Hn%locate_get)%stat_locate. by eapply wf_get.
Qed.

(** The entries a well-formed directory lists. *)
Lemma iterdir_names w dir items :
  wf_node (root w) = true →
  Path_iterdir w dir = Ok items →
  ∃ names, items = Path_div dir <$> names
    ∧ NoDup names ∧ Forall (λ name, valid_name name = true) names.
Proof.
  intros Hwf. unfold Path_iterdir.
  destruct (stat w (Path_str dir)) as [[|[|] x es| |]| |] eqn:Hs; try done.
  intros [= <-]. apply (stat_wf _ _ _ Hwf) in Hs. simpl in Hs.
  apply andb_prop in Hs as [[Hnd Hval]%andb_prop _].
  exists es.*1. split_and!.
  - by rewrite <- list_fmap_compose.
  - by apply bool_decide_eq_true in Hnd.
  - apply Forall_forall. intros y Hy. rewrite forallb_forall in Hval.
    by apply Hval, list_elem_of_In.
Qed.

Lemma split_none sep s : sep ∉ s → split sep s = [s].
Proof.
  induction s as [|c t IH]; [done|]. intros [Hc Ht]%not_elem_of_cons. simpl.
  destruct (N.eqb_spec c sep); [done|]. by rewrite IH.
Qed.

Lemma split_app_sep sep s t :
  split sep (s ++ sep :: t) = split sep s ++ split sep t.
Proof.
  induction s as [|c s IH]; simpl.
  - by rewrite N.eqb_refl.
  - destruct (c =? sep); [by rewrite IH|]. rewrite IH.
    pose proof (split_nonempty sep s). by destruct (split sep s).
Qed.

Lemma join_snoc sep ps p :
  ps ≠ [] → join sep (ps ++ [p]) = join sep ps ++ sep ++ p.
Proof.
  induction ps as [|a [|b ps] IH]; intros Hne; [done|done|].
  change (join sep ((a :: b :: ps) ++ [p]))
    with (a ++ sep ++ join sep ((b :: ps) ++ [p])).
  rewrite IH by done.
  change (join sep (a :: b :: ps)) with (a ++ sep ++ join sep (b :: ps)).
  by rewrite <- !app_assoc.
Qed.

Lemma valid_name_spec name :
  valid_name name = true ↔
  name ≠ [] ∧ (SLASH ∉ name) ∧ name ≠ DOT ∧ name ≠ DOTDOT
  ∧ (fs_len name ≤ NAME_MAX)%nat.
Proof.
  unfold valid_name. rewrite !andb_true_iff, !negb_true_iff,
    !bool_decide_eq_false, Nat.leb_le. naive_solver.
Qed.

Lemma Path_of_name name : valid_name name = true → Path_of name = MkPath [] [name].
Proof.
  intros (H1 & H2 & H3 & H4 & _)%valid_name_spec.
  unfold Path_of. rewrite (split_none _ _ H2). simpl.
  unfold is_component. rewrite !bool_decide_eq_false_2 by done. simpl. f_equal.
  destruct name as [|c t]; [done|]. simpl.
  destruct (N.eqb_spec c SLASH) as [->|]; [|done].
  exfalso. apply H2. by apply list_elem_of_here.
Qed.

(** [dir / name] for the name of an entry. *)
Lemma Path_div_name dir name :
  valid_name name = true →
  Path_div dir name = MkPath (anchor dir) (parts dir ++ [name]).
Proof. intros H. unfold Path_div. by rewrite (Path_of_name _ H). Qed.

(** *** What the tests see at an entry *)

(** Looking one name up in a directory that has been reached. *)
Lemma namei_entry root links d r x es name n :
  get root d = Some (Dir r x es) →
  valid_name name = true →
  lookup_entry name es = Some n →
  answer_map snd (namei root links d [name]) =
  if x then
    match n with
    | Symlink t =>
        match links with
        | O => Absent
        | S links' =>
            if bool_decide (t = []) then Absent
            else answer_map snd
                   (namei root links' (if is_absolute t then [] else d)
                      (split SLASH t))
        end
    | _ => Found n
    end
  else Refused.
Proof.
  intros Hd (H1 & H2 & H3 & H4 & H5)%valid_name_spec Hn.
  rewrite namei_cons, Hd, bool_decide_eq_false_2 by done.
  destruct x; cbn [negb]; [|done].
  rewrite !bool_decide_eq_false_2 by done.
  destruct (Nat.ltb_spec NAME_MAX (fs_len name)); [lia|].
  rewrite Hn. destruct n as [|r' x' es'|t|]; [done| | |done].
  - by rewrite namei_nil, (get_snoc _ _ _ _ _ name Hd), Hn.
  - destruct links; [done|]. rewrite app_nil_r.
    by destruct (bool_decide (t = [])).
Qed.

Lemma is_absolute_app s t : s ≠ [] → is_absolute (s ++ t) = is_absolute s.
Proof. by destruct s. Qed.

Lemma locate_Found w s a :
  locate w s = Found a →
  s ≠ []
  ∧ namei (root w) MAXSYMLINKS (if is_absolute s then [] else cwd w)
      (split SLASH s) = Found a.
Proof.
  unfold locate. case_bool_decide; [done|].
  by destruct (PATH_MAX <=? fs_len s)%nat.
Qed.

Lemma locate_namei w s :
  s ≠ [] → (fs_len s < PATH_MAX)%nat →
  locate w s
  = namei (root w) MAXSYMLINKS (if is_absolute s then [] else cwd w)
      (split SLASH s).
Proof.
  intros Hs Hlen. unfold locate. rewrite bool_decide_eq_false_2 by done.
  destruct (Nat.leb_spec PATH_MAX (fs_len s)); [lia|done].
Qed.

Lemma namei_skip root links dir cs :
  namei root links dir ([] :: cs) = namei root links dir cs.
Proof. rewrite namei_cons. by rewrite bool_decide_eq_true_2. Qed.

Lemma Path_str_snoc a p ps name :
  Path_str (MkPath a ((p :: ps) ++ [name]))
  = Path_str (MkPath a (p :: ps)) ++ SLASH :: name.
Proof.
  unfold Path_str. cbn [anchor parts]. rewrite <- app_comm_cons.
  destruct a; cbv iota; rewrite app_comm_cons, join_snoc by done;
    by rewrite app_assoc.
Qed.

(** The path string of an entry leads where its name leads from the
    directory. *)
Lemma locate_entry w dir name l d r x es :
  anchored dir → valid_name name = true →
  locate w (Path_str dir) = Found (l, d, Dir r x es) →
  (fs_len (Path_str (Path_div dir name)) < PATH_MAX)%nat →
  locate w (Path_str (Path_div dir name)) = namei (root w) l d [name].
Proof.
  intros Hanch Hname Hdir Hlen.
  pose proof Hname as (H1 & H2 & H3 & H4 & H5)%valid_name_spec.
  rewrite (Path_div_name _ _ Hname) in *.
  assert (Hhead : is_absolute name = false).
  { destruct name as [|c t]; [done|]. simpl.
    destruct (N.eqb_spec c SLASH) as [->|]; [|done].
    exfalso. apply H2. by apply list_elem_of_here. }
  apply locate_Found in Hdir as [Hs Hdir].
  destruct dir as [a ps]. unfold anchored in Hanch. cbn [anchor parts] in *.
  destruct ps as [|p ps].
  - (* the directory is an anchor or the working directory *)
    destruct Hanch as [-> | [-> | ->]].
    + assert (E1 : Path_str (MkPath [] []) = DOT) by reflexivity.
      assert (E2 : Path_str (MkPath [] ([] ++ [name])) = name) by reflexivity.
      rewrite E1 in Hdir. rewrite E2 in Hlen |- *.
      rewrite locate_namei by done. rewrite Hhead, (split_none _ _ H2).
      change (is_absolute DOT) with false in Hdir.
      change (split SLASH DOT) with [DOT] in Hdir.
      rewrite namei_cons in Hdir.
      rewrite bool_decide_eq_false_2 in Hdir by done.
      destruct (get (root w) (cwd w)) as [[|r0 x0 es0| |]|] eqn:Hg; try done.
      destruct x0; cbn [negb] in Hdir; [|done].
      rewrite bool_decide_eq_true_2 in Hdir by done.
      rewrite namei_nil, Hg in Hdir. by injection Hdir as <- <- _.
    + assert (E1 : Path_str (MkPath [SLASH] []) = [SLASH]) by reflexivity.
      assert (E2 : Path_str (MkPath [SLASH] ([] ++ [name])) = SLASH :: name)
        by reflexivity.
      rewrite E1 in Hdir. rewrite E2 in Hlen |- *.
      rewrite locate_namei by done.
      change (is_absolute (SLASH :: name)) with true.
      change (is_absolute [SLASH]) with true in Hdir.
      change (split SLASH (SLASH :: name)) with ([] :: split SLASH name).
      change (split SLASH [SLASH]) with [[]; [] : str] in Hdir.
      rewrite (split_none _ _ H2), namei_skip.
      rewrite !namei_skip, namei_nil in Hdir. cbn [get] in Hdir.
      by injection Hdir as <- <- _.
    + assert (E1 : Path_str (MkPath [SLASH; SLASH] []) = [SLASH; SLASH])
        by reflexivity.
      assert (E2 : Path_str (MkPath [SLASH; SLASH] ([] ++ [name]))
                   = SLASH :: SLASH :: name) by reflexivity.
      rewrite E1 in Hdir. rewrite E2 in Hlen |- *.
      rewrite locate_namei by done.
      change (is_absolute (SLASH :: SLASH :: name)) with true.
      change (is_absolute [SLASH; SLASH]) with true in Hdir.
      change (split SLASH (SLASH :: SLASH :: name))
        with ([] :: [] :: split SLASH name).
      change (split SLASH [SLASH; SLASH]) with [[]; []; [] : str] in Hdir.
      rewrite (split_none _ _ H2), !namei_skip.
      rewrite !namei_skip, namei_nil in Hdir. cbn [get] in Hdir.
      by injection Hdir as <- <- _.
  - (* the directory has parts: the string grows by a slash and the name *)
    rewrite Path_str_snoc in Hlen |- *.
    set (s := Path_str (MkPath a (p :: ps))) in *.
    rewrite locate_namei; [|by destruct s|done].
    rewrite is_absolute_app by done.
    rewrite split_app_sep, (split_none _ _ H2).
    by eapply namei_app.
Qed.

(** What [stat] answers for the entries of a directory. *)
Lemma stat_entry w dir name n l d r x es :
  wf_node (root w) = true →
  anchored dir →
  locate w (Path_str dir) = Found (l, d, Dir r x es) →
  lookup_entry name es = Some n →
  (fs_len (Path_str (Path_div dir name)) < PATH_MAX)%nat →
  stat w (Path_str (Path_div dir name))
  = if x then entry_stat w l d n else Refused.
Proof.
  intros Hwf Hanch Hdir Hn Hlen.
  pose proof (locate_get _ _ _ _ _ Hdir) as Hg.
  assert (Hname : valid_name name = true).
  { pose proof (wf_get _ _ _ Hwf Hg) as Hd. simpl in Hd.
    apply andb_prop in Hd as [[_ Hval]%andb_prop _].
    by eapply valid_lookup_entry. }
  unfold stat. rewrite (locate_entry _ _ _ _ _ _ _ _ Hanch Hname Hdir Hlen).
  rewrite (namei_entry _ _ _ _ _ _ _ _ Hg Hname Hn).
  destruct x; [|done]. by destruct n.
Qed.

(** *** What is collected *)

(** Whatever is collected below [dir] lies lexically below it. *)
Lemma collected_below_dir w dir q :
  wf_node (root w) = true → collected w dir q →
  anchor q = anchor dir ∧ ∃ name rest, parts q = parts dir ++ name :: rest.
Proof.
  intros Hwf. induction 1 as [dir items item Hit Hin _ _
                             |dir items item q Hit Hin _ _ IH].
  - destruct (iterdir_names _ _ _ Hwf Hit) as (names & -> & _ & Hval).
    apply list_elem_of_fmap in Hin as (name & -> & Hname).
    rewrite Forall_forall in Hval. rewrite (Path_div_name _ _ (Hval _ Hname)).
    simpl. split; [done|]. by exists name, [].
  - destruct (iterdir_names _ _ _ Hwf Hit) as (names & -> & _ & Hval).
    apply list_elem_of_fmap in Hin as (name & -> & Hname).
    rewrite Forall_forall in Hval.
    rewrite (Path_div_name _ _ (Hval _ Hname)) in IH. simpl in IH.
    destruct IH as (-> & name' & rest & ->). split; [done|].
    exists name, (name' :: rest). by rewrite <- app_assoc.
Qed.

Lemma call_Ok {A} need left (r : res A) a : call need left r = Ok a → r = Ok a.
Proof. unfold call. by destruct (left <? need)%nat. Qed.

Lemma call_enough {A} need left (r : res A) :
  (need ≤ left)%nat → call need left r = r.
Proof. intros H. unfold call. destruct (Nat.ltb_spec left need); [lia|done]. Qed.

Lemma call_Raise {A} need left (r : res A) e :
  call need left r = Raise e → e = RecursionError ∨ r = Raise e.
Proof. unfold call. destruct (left <? need)%nat; [intros [= <-]|]; eauto. Qed.

Lemma search_S w d dir acc :
  search w (S d) dir acc
  = (items ← call (iterdir_frames w) d (Path_iterdir w dir);
     foldM (visit w d) acc items).
Proof. reflexivity. Qed.

Lemma collected_iff w dir items q :
  Path_iterdir w dir = Ok items →
  collected w dir q ↔ ∃ item, item ∈ items ∧ hit w item q.
Proof.
  intros Hit. split.
  - intros H. destruct H as [dir items' item Hit' Hin Hd Hf
                            |dir items' item q Hit' Hin Hd Hc];
      assert (items' = items) as -> by congruence; exists item;
      (split; [done|]); [left|right]; done.
  - intros (item & Hin & [(Hd & Hf & ->)|(Hd & Hc)]).
    + by eapply collected_file.
    + by eapply collected_below.
Qed.

Lemma hit_below w dir name q :
  wf_node (root w) = true → valid_name name = true →
  hit w (Path_div dir name) q →
  anchor q = anchor dir ∧ ∃ rest, parts q = parts dir ++ name :: rest.
Proof.
  intros Hwf Hname. rewrite (Path_div_name _ _ Hname).
  intros [(_ & _ & ->)|(_ & Hc)].
  - simpl. split; [done|]. by exists [].
  - apply (collected_below_dir _ _ _ Hwf) in Hc as (-> & name' & rest & ->).
    simpl. split; [done|]. exists (name' :: rest). by rewrite <- app_assoc.
Qed.

(** One pass of the loop body adds what the entry contributes. *)
Lemma visit_sound w d acc item l' :
  (∀ dir acc l', search w d dir acc = Ok l' →
     ∃ l, l' = acc ++ l ∧ NoDup l ∧ ∀ q, q ∈ l ↔ collected w dir q) →
  visit w d acc item = Ok l' →
  ∃ l, l' = acc ++ l ∧ NoDup l ∧ ∀ q, q ∈ l ↔ hit w item q.
Proof.
  intros IHd. unfold visit, hit.
  destruct (call _ d (Path_is_dir w item)) as [[|]|e] eqn:Hd; simpl; [| |done].
  - apply call_Ok in Hd. rewrite Hd.
    intros (l & -> & Hnd & Hl)%IHd. exists l. split_and!; [done..|].
    intros q. rewrite Hl. naive_solver.
  - apply call_Ok in Hd. rewrite Hd.
    destruct (call _ d (Path_is_file w item)) as [[|]|e] eqn:Hf; simpl;
      [| |done]; apply call_Ok in Hf; rewrite Hf; intros [= <-].
    + exists [item]. split_and!; [done|apply NoDup_singleton|].
      intros q. rewrite list_elem_of_singleton. naive_solver.
    + exists []. rewrite app_nil_r. split_and!; [done|constructor|].
      intros q. rewrite elem_of_nil. naive_solver.
Qed.

Lemma fold_visit_sound w d dir names acc l' :
  wf_node (root w) = true →
  (∀ dir acc l', search w d dir acc = Ok l' →
     ∃ l, l' = acc ++ l ∧ NoDup l ∧ ∀ q, q ∈ l ↔ collected w dir q) →
  NoDup names → Forall (λ name, valid_name name = true) names →
  foldM (visit w d) acc (Path_div dir <$> names) = Ok l' →
  ∃ l, l' = acc ++ l ∧ NoDup l
    ∧ ∀ q, q ∈ l ↔ ∃ name, name ∈ names ∧ hit w (Path_div dir name) q.
Proof.
  intros Hwf IHd Hnd Hval. revert acc.
  induction Hval as [|name names Hname Hval IH]; intros acc.
  { simpl. intros [= <-]. exists []. rewrite app_nil_r.
    split_and!; [done|constructor|].
    intros q. split; [by intros ?%elem_of_nil|].
    by intros (? & ?%elem_of_nil & _). }
  apply NoDup_cons in Hnd as [Hfresh Hnd].
  rewrite fmap_cons. cbn [foldM].
  destruct (visit w d acc (Path_div dir name)) as [l1'|e] eqn:Hv; [|done].
  simpl. apply (visit_sound _ _ _ _ _ IHd) in Hv as (l1 & -> & Hnd1 & Hl1).
  intros (l2 & -> & Hnd2 & Hl2)%(IH Hnd).
  exists (l1 ++ l2). split_and!.
  - by rewrite app_assoc.
  - apply NoDup_app. split_and!; [done| |done].
    intros q Hq1 Hq2. apply Hl1 in Hq1. apply Hl2 in Hq2 as (name' & Hin & Hq2).
    apply (hit_below _ _ _ _ Hwf Hname) in Hq1 as (_ & rest & Hp).
    rewrite Forall_forall in Hval.
    apply (hit_below _ _ _ _ Hwf (Hval _ Hin)) in Hq2 as (_ & rest' & Hp').
    rewrite Hp in Hp'. apply app_inv_head in Hp'. injection Hp' as -> _. done.
  - intros q. rewrite elem_of_app, Hl1, Hl2. split.
    + intros [Hq|(name' & Hin & Hq)].
      * exists name. split; [by apply list_elem_of_here|done].
      * exists name'. split; [by apply list_elem_of_further|done].
    + intros (name' & [->|Hin]%elem_of_cons & Hq); [by left|].
      right. by exists name'.
Qed.

(** Whatever [search] returns is what was there plus the paths collected
    below the directory, each once. *)
Lemma search_sound w d dir acc l' :
  wf_node (root w) = true →
  search w d dir acc = Ok l' →
  ∃ l, l' = acc ++ l ∧ NoDup l ∧ ∀ q, q ∈ l ↔ collected w dir q.
Proof.
  intros Hwf. revert dir acc l'.
  induction d as [|d IHd]; intros dir acc l'; [done|].
  rewrite search_S.
  destruct (call _ d (Path_iterdir w dir)) as [items|e] eqn:Hit; [|done].
  simpl. apply call_Ok in Hit.
  destruct (iterdir_names _ _ _ Hwf Hit) as (names & -> & Hnd & Hval).
  intros (l & -> & Hndl & Hl)%(fold_visit_sound w d dir names acc _ Hwf IHd Hnd Hval).
  exists l. split_and!; [done..|]. intros q.
  rewrite Hl, (collected_iff _ _ _ _ Hit). split.
  - intros (name & Hin & Hq). exists (Path_div dir name). split; [|done].
    apply list_elem_of_fmap. by exists name.
  - intros (item & (name & -> & Hin)%list_elem_of_fmap & Hq). by exists name.
Qed.

(** Only what [is_file] accepts is collected. *)
Lemma collected_is_file w dir q : collected w dir q → Path_is_file w q = Ok true.
Proof. by induction 1. Qed.

(** *** When the walk returns *)

Lemma is_dir_is_file w p b : Path_is_dir w p = Ok b → ∃ b', Path_is_file w p = Ok b'.
Proof.
  unfold Path_is_dir, Path_is_file.
  destruct (stat w (Path_str p)) as [[| | |]| |]; try done; eauto.
Qed.

Lemma fold_visit_returns w d items acc :
  Forall (λ item, ∀ acc, ∃ l, visit w d acc item = Ok l) items →
  ∃ l, foldM (visit w d) acc items = Ok l.
Proof.
  intros H. revert acc. induction H as [|item items Hitem _ IH]; intros acc.
  - by exists acc.
  - cbn [foldM]. destruct (Hitem acc) as [l1 ->]. simpl. apply IH.
Qed.

Lemma lib_frames_le w :
  (iterdir_frames w ≤ lib_frames w ∧ is_dir_frames w ≤ lib_frames w
   ∧ is_file_frames w ≤ lib_frames w)%nat.
Proof. unfold lib_frames. lia. Qed.

(** With every directory listable, every entry examinable and frames
    for the deepest nesting and the library calls made there, [search]
    returns. *)
Lemma search_returns w n d dir acc :
  clean w n dir = true → nested w n dir = false →
  (n + lib_frames w ≤ d)%nat →
  ∃ l, search w d dir acc = Ok l.
Proof.
  revert d dir acc. induction n as [|n IH]; intros d dir acc; [done|].
  cbn [clean nested]. intros Hclean Hnest Hd.
  destruct d as [|d]; [lia|]. assert (n + lib_frames w ≤ d)%nat as Hd' by lia.
  pose proof (lib_frames_le w) as (F1 & F2 & F3).
  rewrite search_S, call_enough by lia.
  destruct (Path_iterdir w dir) as [items|e]; [|done]. simpl.
  apply fold_visit_returns, Forall_forall. intros item Hin%list_elem_of_In acc'.
  rewrite forallb_forall in Hclean. specialize (Hclean _ Hin).
  assert (Hn : match Path_is_dir w item with
               | Ok true => nested w n item
               | _ => false
               end = false).
  { destruct (match Path_is_dir w item with
              | Ok true => nested w n item | _ => false end) eqn:E; [|done].
    rewrite <- Hnest. symmetry. apply existsb_exists. by exists item. }
  unfold visit. rewrite !call_enough by lia.
  destruct (Path_is_dir w item) as [[|]|e] eqn:Hdir; [| |done]; simpl.
  - by apply IH.
  - destruct (is_dir_is_file _ _ _ Hdir) as [[|] ->]; simpl; eauto.
Qed.

(** *** What the walk can raise *)

Lemma iterdir_raises w p e : Path_iterdir w p = Raise e → e = OSError.
Proof.
  unfold Path_iterdir.
  destruct (stat w (Path_str p)) as [[|[|] ? ?| |]| |]; congruence.
Qed.

Lemma is_dir_raises w p e : Path_is_dir w p = Raise e → e = OSError.
Proof.
  unfold Path_is_dir. destruct (stat w (Path_str p)) as [[| | |]| |]; congruence.
Qed.

Lemma is_file_raises w p e : Path_is_file w p = Raise e → e = OSError.
Proof.
  unfold Path_is_file. destruct (stat w (Path_str p)) as [[| | |]| |]; congruence.
Qed.


Lemma open_raises w p e : open w p = Raise e → e = OSError.
Proof.
  unfold open. destruct (stat w (Path_str p)) as [[[|]| | |]| |]; congruence.
Qed.

Lemma visit_raises w d acc item e :
  (∀ dir acc, search w d dir acc = Raise e → e = OSError ∨ e = RecursionError) →
  visit w d acc item = Raise e → e = OSError ∨ e = RecursionError.
Proof.
  intros IH. unfold visit.
  destruct (call _ d (Path_is_dir w item)) as [[|]|e2] eqn:Hd; simpl.
  - apply IH.
  - destruct (call _ d (Path_is_file w item)) as [[|]|e3] eqn:Hf; simpl;
      try done.
    intros [= <-]. apply call_Raise in Hf as [->|Hf]; [by right|].
    left. by eapply is_file_raises.
  - intros [= <-]. apply call_Raise in Hd as [->|Hd]; [by right|].
    left. by eapply is_dir_raises.
Qed.

Lemma search_raises w d dir acc e :
  search w d dir acc = Raise e → e = OSError ∨ e = RecursionError.
Proof.
  revert dir acc. induction d as [|d IH]; intros dir acc.
  - intros [= <-]. by right.
  - rewrite search_S.
    destruct (call _ d (Path_iterdir w dir)) as [items|e'] eqn:Hit; simpl.
    + clear Hit. revert acc.
      induction items as [|item items IHi]; intros acc; simpl; [done|].
      destruct (visit w d acc item) as [acc'|e'] eqn:Hv; simpl; [apply IHi|].
      intros [= <-]. by eapply visit_raises.
    + intros [= <-]. apply call_Raise in Hit as [->|Hit]; [by right|].
      left. by eapply iterdir_raises.
Qed.

Lemma find_files_raises w dir e :
  find_files w dir = Raise e → e = OSError ∨ e = RecursionError.
Proof. apply search_raises. Qed.

(** ** File Enumerator: C7 *)

(** C7 (amended): in a well-formed tree, whenever [find_files] returns,
    its list has no repetition and holds exactly the paths reached by
    going down through entries that are directories to an entry that is
    a regular file, where both tests follow symbolic links.  It returns
    when every directory reached can be listed, every entry examined, and
    the frames left suffice for the nesting and the library calls; when
    it does not return, it raises [OSError] or [RecursionError].  What
    the tests see at the entry [name] of a directory is the entry itself
    unless it is a symbolic link, and then what its target leads to from
    that directory: so a socket, a device or a dangling link is left out,
    a link to a regular file is collected under the path of the link and
    a link to a directory is descended into; in a directory that may not
    be searched the tests raise [OSError], as does listing a directory
    that may not be read. *)
Theorem find_files_collects (w : World) (dir : Path) :
  wf_node (root w) = true →
  (∀ l, find_files w dir = Ok l →
     NoDup l
     ∧ (∀ q, q ∈ l ↔ collected w dir q)
     ∧ Forall (λ q, Path_is_file w q = Ok true) l)
  ∧ (clean w (recursion_limit w - lib_frames w) dir = true →
     nested w (recursion_limit w - lib_frames w) dir = false →
     ∃ l, find_files w dir = Ok l)
  ∧ (∀ e, find_files w dir = Raise e → e = OSError ∨ e = RecursionError)
  ∧ (∀ p links d r x es,
       anchored p →
       locate w (Path_str p) = Found (links, d, Dir r x es) →
       Path_iterdir w p
       = (if r then Ok ((λ e, Path_div p e.1) <$> es) else Raise OSError)
       ∧ ∀ name n,
           lookup_entry name es = Some n →
           (fs_len (Path_str (Path_div p name)) < PATH_MAX)%nat →
           stat w (Path_str (Path_div p name))
           = (if x then entry_stat w links d n else Refused)
           ∧ Path_is_dir w (Path_div p name)
             = (if x then
                  match entry_stat w links d n with
                  | Found (Dir _ _ _) => Ok true
                  | Found _ | Absent => Ok false
                  | Refused => Raise OSError
                  end
                else Raise OSError)
           ∧ Path_is_file w (Path_div p name)
             = (if x then
                  match entry_stat w links d n with
                  | Found (File _) => Ok true
                  | Found _ | Absent => Ok false
                  | Refused => Raise OSError
                  end
                else Raise OSError)).
Proof.
  intros Hwf. split_and!.
  - intros l' (l & -> & Hnd & Hl)%(search_sound _ _ _ _ _ Hwf). simpl.
    split_and!; [done..|].
    apply Forall_forall. intros q Hq%Hl. by eapply collected_is_file.
  - intros Hclean Hnest. apply (search_returns _ _ _ _ _ Hclean Hnest).
    destruct (recursion_limit w - lib_frames w)%nat eqn:E; [done|lia].
  - apply find_files_raises.
  - intros p links d r x es Hanch Hp. split.
    + unfold Path_iterdir, stat. rewrite Hp. simpl. by destruct r.
    + intros name n Hn Hlen.
      pose proof (stat_entry _ _ _ _ _ _ _ _ _ Hwf Hanch Hp Hn Hlen) as Hs.
      unfold Path_is_dir, Path_is_file. rewrite Hs.
      split_and!; [done|by destruct x..].
Qed.

Lemma find_files_collects_witness :
  wf_node (root (sample ∅)) = true
  ∧ clean (sample ∅)
      (recursion_limit (sample ∅) - lib_frames (sample ∅)) proj_path = true
  ∧ nested (sample ∅)
      (recursion_limit (sample ∅) - lib_frames (sample ∅)) proj_path = false
  ∧ (∃ l, find_files (sample ∅) proj_path = Ok l)
  ∧ Path_is_file (sample ∅) (Path_div proj_path (py "link")) = Ok true.
Proof.
  assert (H1 : wf_node (root (sample ∅)) = true) by (vm_compute; reflexivity).
  assert (H2 : clean (sample ∅)
                 (recursion_limit (sample ∅) - lib_frames (sample ∅)) proj_path
               = true) by (vm_compute; reflexivity).
  assert (H3 : nested (sample ∅)
                 (recursion_limit (sample ∅) - lib_frames (sample ∅)) proj_path
               = false) by (vm_compute; reflexivity).
  assert (H4 : anchored proj_path) by (right; left; reflexivity).
  assert (H5 : locate (sample ∅) (Path_str proj_path)
               = Found (MAXSYMLINKS, [py "home"; py "u"; py "proj"],
                        Dir true true proj_entries))
    by (vm_compute; reflexivity).
  assert (H6 : lookup_entry (py "link") proj_entries
               = Some (Symlink (py "notes.txt"))) by (vm_compute; reflexivity).
  assert (H7 : (fs_len (Path_str (Path_div proj_path (py "link"))) < PATH_MAX)%nat)
    by (vm_compute; lia).
  pose proof (find_files_collects (sample ∅) proj_path H1)
    as (_ & HB & _ & HC).
  split_and!; [exact H1|exact H2|exact H3|exact (HB H2 H3)|].
  destruct (HC proj_path _ _ _ _ _ H4 H5) as [_ HE].
  destruct (HE _ _ H6 H7) as (_ & _ & Hf). exact Hf.
Defined.

(** C7 as stated fails in two ways.  The entry [link] of [/home/u/proj]
    is a symbolic link and it is in the result, next to the regular file
    [notes.txt] it leads to, so that file is visited twice.  And the
    enumeration does not always return: a directory below the root that
    may not be listed ends it with [OSError], and so does one that may
    be listed but not searched, whose entries cannot be examined, and so
    does a root that is a regular file; with eight frames left it
    returns for [/home/u/proj] and ends with [RecursionError] for [/],
    three directories higher. *)
Lemma symlink_is_collected :
  (find_files (sample ∅) proj_path
   = Ok [Path_of (py "/home/u/proj/notes.txt");
         Path_of (py "/home/u/proj/plain.txt");
         Path_of (py "/home/u/proj/blob.bin");
         Path_of (py "/home/u/proj/link")]
   ∧ get tree [py "home"; py "u"; py "proj"; py "link"]
     = Some (Symlink (py "notes.txt"))
   ∧ locate (sample ∅) (py "/home/u/proj/link")
     = Found (39%nat, [py "home"; py "u"; py "proj"; py "notes.txt"],
              File (Readable notes))
   ∧ locate (sample ∅) (py "/home/u/proj/notes.txt")
     = Found (40%nat, [py "home"; py "u"; py "proj"; py "notes.txt"],
              File (Readable notes)))
  ∧ (get (root sealed) [py "home"; py "u"; py "proj"; py "private"]
     = Some (Dir false true [(py "x.py", File (Readable notes))])
     ∧ Path_iterdir sealed (Path_of (py "/home/u/proj/private"))
       = Raise OSError
     ∧ find_files sealed proj_path = Raise OSError)
  ∧ (get (root no_search) [py "home"; py "u"; py "proj"; py "private"]
     = Some (Dir true false [(py "x.py", File (Readable notes))])
     ∧ Path_is_dir no_search (Path_of (py "/home/u/proj/private/x.py"))
       = Raise OSError
     ∧ find_files no_search proj_path = Raise OSError)
  ∧ (get (root (sample ∅)) [py "home"; py "u"; py "proj"; py "notes.txt"]
     = Some (File (Readable notes))
     ∧ find_files (sample ∅) notes_path = Raise OSError)
  ∧ (recursion_limit tight = 8%nat
     ∧ find_files tight proj_path
       = Ok [Path_of (py "/home/u/proj/notes.txt");
             Path_of (py "/home/u/proj/plain.txt");
             Path_of (py "/home/u/proj/blob.bin");
             Path_of (py "/home/u/proj/link")]
     ∧ find_files tight (Path_of (py "/")) = Raise RecursionError).
Proof. split_and!; by vm_compute. Qed.

(** * Further properties of the program *)

(** ** What can be raised *)

Lemma mapM_Raise {A B} (f : A → res B) l e :
  mapM f l = Raise e → ∃ x, x ∈ l ∧ f x = Raise e.
Proof.
  induction l as [|x l IH]; simpl; [done|].
  destruct (f x) as [y|e'] eqn:Hx; simpl.
  - destruct (mapM f l) as [ys|e'']; simpl; [done|].
    intros [= <-]. destruct IH as (x' & ? & ?); [done|].
    exists x'. split; [by apply list_elem_of_further|done].
  - intros [= <-]. exists x. split; [apply list_elem_of_here|done].
Qed.

Lemma mapM_Raise_exists {A B} (f : A → res B) l x e :
  x ∈ l → f x = Raise e → ∃ e', mapM f l = Raise e'.
Proof.
  induction l as [|y l IH]; [by intros ?%elem_of_nil|].
  intros [->|Hin]%elem_of_cons Hx; simpl.
  - rewrite Hx. by eexists.
  - destruct (f y); simpl; [|by eexists].
    destruct (IH Hin Hx) as [e' ->]. by eexists.
Qed.

Lemma search_file_Raise w path e :
  search_file w path = Raise e →
  e = OSError
  ∧ (open w path = Raise OSError
     ∨ ∃ f, open w path = Ok f ∧ decodes f = true ∧ reads f = false).
Proof.
  rewrite search_file_eq. destruct (open w path) as [f|e'] eqn:Ho.
  - destruct (decodes f) eqn:Hd; [|done]. destruct (reads f) eqn:Hr; [done|].
    intros [= <-]. split; [done|]. right. by exists f.
  - intros [= <-]. rewrite (open_raises _ _ _ Ho). split; [done|]. by left.
Qed.

(** X3: [search_file] raises nothing but [OSError], and that in two
    cases: [open] fails, or the file opens and reading it fails before
    any undecodable byte is met.  A decoding error never leaves it, and
    the [strip] on a group that is [None] never happens. *)
Theorem search_file_raises_only_open (w : World) (path : Path) (e : exn) :
  search_file w path = Raise e ↔
  e = OSError
  ∧ (open w path = Raise OSError
     ∨ ∃ f, open w path = Ok f ∧ decodes f = true ∧ reads f = false).
Proof.
  split; [apply search_file_Raise|].
  intros [-> [Ho|(f & Ho & Hd & Hr)]]; rewrite search_file_eq, Ho; [done|].
  by rewrite Hd, Hr.
Qed.

(** ** The run as a whole *)



Lemma main_after_roots w c roots :
  scan_roots w c = (c, Ok roots) →
  main w c =
  match mapM (find_files w) roots with
  | Ok files =>
      match_and_report w (concat files)
        (MkEffects (stdout c) (stderr c) (submitted c ++ roots))
  | Raise e => (MkEffects (stdout c) (stderr c) (submitted c ++ roots), Raise e)
  end.
Proof.
  intros Hr. rewrite main_eq. unfold mbind at 1, io_bind at 1. rewrite Hr.
  unfold mbind at 1, io_bind at 1, pool_map at 1.
  by destruct (mapM (find_files w) roots).
Qed.




(** ** Enumeration that fails *)

Lemma not_dir_iterdir w dir :
  Path_is_dir w dir = Ok false → Path_iterdir w dir = Raise OSError.
Proof.
  unfold Path_is_dir, Path_iterdir.
  by destruct (stat w (Path_str dir)) as [[| | |]| |].
Qed.

(** X4: a root that is not a directory, such as a regular file named in
    [TODO_PATH], ends the run: once the roots are handed to the pool an
    uncaught error comes back, no file is searched, nothing is printed
    and the exit code is 1.  The error of that root is the [OSError] of
    [iterdir], given the frames to call it. *)
Theorem root_not_directory (w : World) (roots : list Path) (r : Path) :
  scan_roots w (MkEffects [] [] []) = (MkEffects [] [] [], Ok roots) →
  r ∈ roots →
  Path_is_dir w r = Ok false →
  (iterdir_frames w < recursion_limit w)%nat →
  find_files w r = Raise OSError
  ∧ ∃ e, run_program w = MkOutcome [] [] roots 1 (Some e)
      ∧ (e = OSError ∨ e = RecursionError).
Proof.
  intros Hr Hin Hdir Hlim.
  assert (Hf : find_files w r = Raise OSError).
  { unfold find_files. destruct (recursion_limit w) as [|d]; [lia|].
    rewrite search_S, call_enough by lia.
    by rewrite (not_dir_iterdir _ _ Hdir). }
  split; [done|].
  destruct (mapM_Raise_exists _ _ _ _ Hin Hf) as [e He].
  exists e. split.
  - unfold run_program. rewrite (main_after_roots _ _ _ Hr), He. simpl.
    apply mapM_Raise in He as (dir & _ & Hd).
    by destruct (find_files_raises _ _ _ Hd) as [-> | ->].
  - apply mapM_Raise in He as (dir & _ & Hd). by eapply find_files_raises.
Qed.

Lemma root_not_directory_witness :
  scan_roots (sample file_root) (MkEffects [] [] [])
  = (MkEffects [] [] [], Ok [notes_path])
  ∧ notes_path ∈ [notes_path]
  ∧ Path_is_dir (sample file_root) notes_path = Ok false
  ∧ (iterdir_frames (sample file_root) < recursion_limit (sample file_root))%nat
  ∧ find_files (sample file_root) notes_path = Raise OSError
  ∧ ∃ e, run_program (sample file_root) = MkOutcome [] [] [notes_path] 1 (Some e)
      ∧ (e = OSError ∨ e = RecursionError).
Proof.
  assert (H1 : scan_roots (sample file_root) (MkEffects [] [] [])
    = (MkEffects [] [] [], Ok [notes_path])) by (vm_compute; reflexivity).
  assert (H2 : notes_path ∈ [notes_path]) by apply list_elem_of_here.
  assert (H3 : Path_is_dir (sample file_root) notes_path = Ok false)
    by (vm_compute; reflexivity).
  assert (H4 : (iterdir_frames (sample file_root)
                < recursion_limit (sample file_root))%nat)
    by (vm_compute; lia).
  split_and!; [exact H1|exact H2|exact H3|exact H4|..];
    apply (root_not_directory (sample file_root) _ _ H1 H2 H3 H4).
Defined.

Lemma foldM_cons {A B} (f : B → A → res B) b x l :
  foldM f b (x :: l) = (b' ← f b x; foldM f b' l).
Proof. reflexivity. Qed.

Lemma foldM_raises_at {A B} (f : B → A → res B) b l x :
  x ∈ l → (∀ b, ∃ e, f b x = Raise e) → ∃ e, foldM f b l = Raise e.
Proof.
  intros Hin Hx. revert b. induction l as [|y l IH]; intros b.
  - by apply elem_of_nil in Hin.
  - rewrite foldM_cons. apply elem_of_cons in Hin as [<-|Hin].
    + destruct (Hx b) as [e ->]. by exists e.
    + destruct (f b y) as [b'|e]; simpl; [by apply IH|by exists e].
Qed.

(** Directories nested as deep as there are frames: [search] does not
    return. *)
Lemma search_nested w d dir acc :
  nested w d dir = true → ∃ e, search w d dir acc = Raise e.
Proof.
  revert dir acc. induction d as [|d IH]; intros dir acc Hnest.
  - by exists RecursionError.
  - rewrite search_S. cbn [nested] in Hnest.
    destruct (Path_iterdir w dir) as [items|e] eqn:Hit; [|done].
    destruct (call (iterdir_frames w) d (Ok items)) as [items'|e] eqn:Hc;
      simpl; [|by eexists].
    apply call_Ok in Hc as [= <-].
    apply existsb_exists in Hnest as (item & Hin%list_elem_of_In & Hitem).
    apply (foldM_raises_at _ _ _ item Hin). intros acc'. unfold visit.
    destruct (call (is_dir_frames w) d (Path_is_dir w item)) as [b|e] eqn:Hc;
      simpl; [|by eexists].
    apply call_Ok in Hc. rewrite Hc in Hitem. destruct b; [by apply IH|done].
Qed.

(** Where every directory can be listed and every entry examined, only
    the recursion limit stops [search]. *)
Lemma search_raises_clean w d dir acc e :
  clean w d dir = true → search w d dir acc = Raise e → e = RecursionError.
Proof.
  revert dir acc. induction d as [|d IH]; intros dir acc Hclean.
  - by intros [= <-].
  - rewrite search_S. cbn [clean] in Hclean.
    destruct (Path_iterdir w dir) as [items|e'] eqn:Hit; [|done].
    destruct (call _ d (Ok items)) as [items'|e'] eqn:Hc; simpl.
    2:{ intros [= <-]. by apply call_Raise in Hc as [->|?]. }
    apply call_Ok in Hc as [= <-]. clear Hit. revert acc.
    induction items as [|item items IHi]; intros acc; [done|].
    cbn [forallb] in Hclean. apply andb_prop in Hclean as [Hitem Hclean].
    rewrite foldM_cons.
    destruct (visit w d acc item) as [acc'|e'] eqn:Hv; simpl;
      [by apply IHi|].
    intros [= <-]. unfold visit in Hv.
    destruct (Path_is_dir w item) as [[|]|e2] eqn:Hd; [| |done].
    + destruct (call _ d (Ok true)) as [b|e2] eqn:Hc; simpl in Hv.
      * apply call_Ok in Hc as [= <-]. by eapply IH.
      * injection Hv as <-. by apply call_Raise in Hc as [->|?].
    + destruct (call _ d (Ok false)) as [b|e2] eqn:Hc; simpl in Hv.
      * apply call_Ok in Hc as [= <-].
        destruct (is_dir_is_file _ _ _ Hd) as [b Hf]. rewrite Hf in Hv.
        destruct (call _ d (Ok b)) as [b'|e3] eqn:Hc'; simpl in Hv.
        -- by destruct b'.
        -- injection Hv as <-. by apply call_Raise in Hc' as [->|?].
      * injection Hv as <-. by apply call_Raise in Hc as [->|?].
Qed.

(** X5: when directories are nested below a directory as deep as the
    recursion limit has frames, [find_files] does not return: it raises,
    and what it raises is [RecursionError] unless a directory on the way
    cannot be listed or an entry examined.  When the nesting is
    shallower than the limit by the frames the library calls need, and
    every directory can be listed and every entry examined, it returns. *)
Theorem find_files_recursion_limit (w : World) (dir : Path) :
  (nested w (recursion_limit w) dir = true →
   ∃ e, find_files w dir = Raise e
     ∧ (e = OSError ∨ e = RecursionError)
     ∧ (clean w (recursion_limit w) dir = true → e = RecursionError))
  ∧ (clean w (recursion_limit w - lib_frames w) dir = true →
     nested w (recursion_limit w - lib_frames w) dir = false →
     ∃ l, find_files w dir = Ok l).
Proof.
  unfold find_files. split.
  - intros Hnest. destruct (search_nested w _ dir [] Hnest) as [e He].
    exists e. split_and!; [done|by eapply search_raises|].
    intros Hclean. by eapply search_raises_clean.
  - intros Hclean Hnest. apply (search_returns _ _ _ _ _ Hclean Hnest).
    destruct (recursion_limit w - lib_frames w)%nat eqn:E; [done|lia].
Qed.

Lemma find_files_recursion_limit_witness :
  nested low_limit (recursion_limit low_limit) (Path_of (py "/")) = true
  ∧ clean low_limit (recursion_limit low_limit) (Path_of (py "/")) = true
  ∧ find_files low_limit (Path_of (py "/")) = Raise RecursionError
  ∧ clean (sample ∅)
      (recursion_limit (sample ∅) - lib_frames (sample ∅)) proj_path = true
  ∧ nested (sample ∅)
      (recursion_limit (sample ∅) - lib_frames (sample ∅)) proj_path = false
  ∧ ∃ l, find_files (sample ∅) proj_path = Ok l.
Proof.
  assert (H1 : nested low_limit (recursion_limit low_limit) (Path_of (py "/"))
               = true) by (vm_compute; reflexivity).
  assert (H2 : clean low_limit (recursion_limit low_limit) (Path_of (py "/"))
               = true) by (vm_compute; reflexivity).
  assert (H3 : clean (sample ∅)
                 (recursion_limit (sample ∅) - lib_frames (sample ∅)) proj_path
               = true) by (vm_compute; reflexivity).
  assert (H4 : nested (sample ∅)
                 (recursion_limit (sample ∅) - lib_frames (sample ∅)) proj_path
               = false) by (vm_compute; reflexivity).
  split_and!; [exact H1|exact H2| |exact H3|exact H4|].
  - destruct (proj1 (find_files_recursion_limit low_limit (Path_of (py "/"))) H1)
      as (e & He & _ & Hc). by rewrite He, (Hc H2).
  - exact (proj2 (find_files_recursion_limit (sample ∅) proj_path) H3 H4).
Defined.

(** ** The order of enumeration *)

Lemma foldM_visit w d acc items :
  (∀ a item, visit w d a item = (l ← entry_files w d item; Ok (a ++ l))) →
  foldM (visit w d) acc items
  = (ls ← mapM (entry_files w d) items; Ok (acc ++ concat ls)).
Proof.
  intros Hv. revert acc. induction items as [|item items IH]; intros acc.
  - simpl. by rewrite app_nil_r.
  - rewrite foldM_cons, Hv. simpl.
    destruct (entry_files w d item) as [l|e]; simpl; [|done].
    rewrite IH. destruct (mapM (entry_files w d) items) as [ls|e]; simpl;
      [|done].
    by rewrite app_assoc.
Qed.

(** X7: [find_files] is a depth-first walk in listing order: what
    [search] adds to the list it is given is, entry by entry and in the
    order of the listing, the entry itself when it is a regular file, all
    that [search] finds below it when it is a directory, and nothing
    otherwise; what was in the list before stays in front. *)
Theorem enumeration_order (w : World) (d : nat) (dir : Path) (acc : list Path) :
  search w (S d) dir acc
  = (items ← call (iterdir_frames w) d (Path_iterdir w dir);
     ls ← mapM (entry_files w d) items;
     Ok (acc ++ concat ls)).
Proof.
  assert (Hstep : ∀ d,
    (∀ dir a, search w d dir a = (l ← search w d dir []; Ok (a ++ l))) →
    ∀ dir acc, search w (S d) dir acc
      = (items ← call (iterdir_frames w) d (Path_iterdir w dir);
         ls ← mapM (entry_files w d) items;
         Ok (acc ++ concat ls))).
  { intros d' Hd dir' acc'. rewrite search_S.
    destruct (call _ d' (Path_iterdir w dir')) as [items|e]; simpl; [|done].
    apply foldM_visit. intros a item. unfold visit, entry_files, visit.
    destruct (call _ d' (Path_is_dir w item)) as [[|]|e]; simpl;
      [apply Hd| |done].
    destruct (call _ d' (Path_is_file w item)) as [[|]|e]; simpl;
      by rewrite ?app_nil_r. }
  assert (Hacc : ∀ d dir a,
    search w d dir a = (l ← search w d dir []; Ok (a ++ l))).
  { clear d dir acc. induction d as [|d IH]; intros dir a; [done|].
    rewrite (Hstep d IH dir a), (Hstep d IH dir []).
    destruct (call _ d (Path_iterdir w dir)) as [items|e]; simpl; [|done].
    by destruct (mapM (entry_files w d) items). }
  apply Hstep, Hacc.
Qed.

(** ** What an annotation holds *)

Lemma lstrip_spec s :
  ∃ a, s = a ++ lstrip s ∧ all isspace a ∧ not_space (head (lstrip s)).
Proof.
  induction s as [|c t IH]; simpl.
  - exists []. split_and!; [done|constructor|by intros ?].
  - destruct (isspace c) eqn:Hc.
    + destruct IH as (a & Ht & Ha & Hh). exists (c :: a).
      split_and!; [simpl; by f_equal|by constructor|done].
    + exists []. split_and!; [done|constructor|].
      intros c' [= <-]. done.
Qed.

Lemma last_rev (l : str) : last (rev l) = head l.
Proof. destruct l as [|x t]; [done|]. simpl. apply last_snoc. Qed.

Lemma rstrip_spec s :
  ∃ b, s = rstrip s ++ b ∧ all isspace b ∧ not_space (last (rstrip s)).
Proof.
  unfold rstrip. destruct (lstrip_spec (rev s)) as (a & Hs & Ha & Hh).
  exists (rev a). split_and!.
  - rewrite <- rev_app_distr, <- Hs. by rewrite rev_involutive.
  - apply Forall_forall. intros c Hc. rewrite Forall_forall in Ha.
    apply Ha. apply list_elem_of_In, in_rev in Hc. by apply list_elem_of_In.
  - by rewrite last_rev.
Qed.

(** [strip] takes whitespace off both ends and nothing else, and leaves
    no whitespace at either end. *)
Lemma strip_spec s :
  ∃ a b, s = a ++ strip s ++ b ∧ all isspace a ∧ all isspace b
    ∧ not_space (first_char (strip s)) ∧ not_space (last_char (strip s)).
Proof.
  unfold strip, first_char, last_char.
  destruct (lstrip_spec s) as (a & Hs & Ha & Hh).
  destruct (rstrip_spec (lstrip s)) as (b & Hl & Hb & Hlast).
  exists a, b. split_and!; [by rewrite <- Hl|done..| |done].
  intros c Hc. apply Hh. rewrite Hl.
  destruct (rstrip (lstrip s)); [done|]. exact Hc.
Qed.

Lemma upper_is_not_space c : isupper_AZ c = true → isspace c = false.
Proof.
  unfold isupper_AZ, isspace.
  intros [H1%N.leb_le H2%N.leb_le]%andb_prop.
  repeat match goal with
  | |- context [?a <=? ?b] =>
      first [ replace (a <=? b) with false by (symmetry; apply N.leb_gt; lia)
            | replace (a <=? b) with true by (symmetry; apply N.leb_le; lia) ]
  | |- context [?a =? ?b] =>
      replace (a =? b) with false by (symmetry; apply N.eqb_neq; lia)
  end.
  reflexivity.
Qed.

(** X2: in every report of [search_file], the text of an annotation
    neither starts nor ends with whitespace and holds no line feed, and
    its tag holds no whitespace. *)
Theorem annotations_trimmed (w : World) (path : Path) (r : SearchResult)
    (k : N) (tag text : str) :
  search_file w path = Ok (Some r) →
  (k, tag, text) ∈ todos r →
  not_space (first_char text) ∧ not_space (last_char text)
  ∧ (LF ∉ text) ∧ Forall (λ c, isspace c = false) tag.
Proof.
  rewrite search_file_eq. destruct (open w path) as [f|e]; [|done].
  destruct (decodes f); [|done]. destruct (reads f); [|done].
    intros [= <-]. simpl.
  intros (_ & _ & line & raw & _ & Ha & ->)%collect_elem.
  destruct Ha as (ws & tok & gap & rest & _ & _ & _ & _
                  & (up & -> & _ & Hup) & ->).
  destruct (strip_spec (take_while dot rest))
    as (a & b & Hraw & _ & _ & Hfirst & Hlast).
  split_and!; [done|done| |].
  - intros Hin. pose proof (take_while_all dot rest) as Hdot.
    rewrite Hraw in Hdot. rewrite Forall_forall in Hdot.
    specialize (Hdot LF). rewrite !elem_of_app in Hdot.
    by specialize (Hdot (or_intror (or_introl Hin))).
  - constructor; [done|]. eapply Forall_impl; [exact Hup|].
    apply upper_is_not_space.
Qed.

Lemma annotations_trimmed_witness :
  search_file (sample ∅) notes_path = Ok (Some notes_report)
  ∧ (3, py "@FIXME", py "broken on windows") ∈ todos notes_report
  ∧ not_space (first_char (py "broken on windows"))
  ∧ not_space (last_char (py "broken on windows"))
  ∧ (LF ∉ py "broken on windows")
  ∧ Forall (λ c, isspace c = false) (py "@FIXME").
Proof.
  assert (H1 : search_file (sample ∅) notes_path = Ok (Some notes_report))
    by (vm_compute; reflexivity).
  assert (H2 : (3, py "@FIXME", py "broken on windows") ∈ todos notes_report)
    by (apply list_elem_of_further, list_elem_of_here).
  split_and!; [exact H1|exact H2|..];
    apply (annotations_trimmed _ _ _ _ _ _ H1 H2).
Defined.

(** X1: for a file that opens, decodes and is read to its end,
    [search_file] returns a report for that path which holds an
    annotation for every annotated line, with the number of the line
    counted from 1, its tag and its text stripped; the report has as many
    annotations as the file has annotated lines. *)
Theorem search_file_complete (w : World) (path : Path) (f : text_stream) :
  open w path = Ok f →
  decodes f = true →
  reads f = true →
  ∃ r, search_file w path = Ok (Some r)
    ∧ file r = path
    ∧ (∀ i line tag raw,
          lines_of f !! i = Some line → annotated_line line tag raw →
          (N.of_nat i + 1, tag, strip raw) ∈ todos r)
    ∧ length (todos r)
      = length (List.filter (λ line, bool_decide (is_Some (line_groups line)))
                  (lines_of f)).
Proof.
  intros Ho Hd Hr. rewrite search_file_eq, Ho, Hd, Hr. eexists.
  split; [done|].
  simpl. split_and!; [done| |].
  - intros i line tag raw Hl Ha.
    replace (N.of_nat i + 1) with (1 + N.of_nat i) by lia.
    by eapply collect_complete.
  - generalize 1. induction (lines_of f) as [|l ls IH]; intros n; [done|].
    simpl. rewrite length_app, IH.
    by destruct (line_groups l) as [[tag raw]|].
Qed.

Lemma search_file_complete_witness :
  open (sample ∅) notes_path = Ok notes
  ∧ decodes notes = true
  ∧ reads notes = true
  ∧ ∃ r, search_file (sample ∅) notes_path = Ok (Some r)
      ∧ file r = notes_path
      ∧ (∀ i line tag raw,
            lines_of notes !! i = Some line → annotated_line line tag raw →
            (N.of_nat i + 1, tag, strip raw) ∈ todos r)
      ∧ length (todos r)
        = length (List.filter
                    (λ line, bool_decide (is_Some (line_groups line)))
                    (lines_of notes)).
Proof.
  assert (H1 : open (sample ∅) notes_path = Ok notes)
    by (vm_compute; reflexivity).
  split_and!; [exact H1|reflexivity|reflexivity|].
  exact (search_file_complete (sample ∅) notes_path notes H1 eq_refl eq_refl).
Defined.

(** ** Reporting lists of files one after the other *)

Lemma printed_app w rs1 rs2 :
  (printed w rs1).2 = true →
  (printed w (rs1 ++ rs2)).1 = (printed w rs1).1 ++ (printed w rs2).1
  ∧ (printed w (rs1 ++ rs2)).2 = (printed w rs2).2.
Proof.
  induction rs1 as [|r rs1 IH]; simpl; [done|].
  destruct (printable w r); simpl; [|done].
  intros H. destruct (IH H) as [-> ->]. by rewrite app_assoc.
Qed.

(** X9: matching and reporting two lists of files at once is the same as
    doing the first list and then the second, provided the first goes
    through and every file of the second can be read; nothing is
    deduplicated, so a file that is in both lists is reported twice. *)
Theorem match_and_report_app (w : World) (files1 files2 : list Path)
    (found2 : list (option SearchResult)) (c : effects) :
  (match_and_report w files1 c).2 = Ok () →
  mapM (search_file w) files2 = Ok found2 →
  match_and_report w (files1 ++ files2) c
  = match_and_report w files2 (match_and_report w files1 c).1.
Proof.
  rewrite !match_and_report_eq, mapM_app. intros H1 H2. rewrite H2.
  destruct (mapM (search_file w) files1) as [found1|e]; [|done].
  simpl in *. rewrite omap_app.
  destruct (printed w (omap keep found1)).2 eqn:Hp; [|done].
  destruct (printed_app w (omap keep found1) (omap keep found2) Hp)
    as [-> ->].
  by rewrite !app_assoc.
Qed.

Lemma match_and_report_app_witness :
  (match_and_report (sample ∅) [notes_path] (MkEffects [] [] [])).2 = Ok ()
  ∧ mapM (search_file (sample ∅)) [notes_path] = Ok [Some notes_report]
  ∧ match_and_report (sample ∅) ([notes_path] ++ [notes_path])
      (MkEffects [] [] [])
    = match_and_report (sample ∅) [notes_path]
        (match_and_report (sample ∅) [notes_path] (MkEffects [] [] [])).1.
Proof.
  assert (H1 : (match_and_report (sample ∅) [notes_path]
                  (MkEffects [] [] [])).2 = Ok ())
    by (vm_compute; reflexivity).
  assert (H2 : mapM (search_file (sample ∅)) [notes_path]
               = Ok [Some notes_report]) by (vm_compute; reflexivity).
  split_and!; [exact H1|exact H2|].
  exact (match_and_report_app (sample ∅) _ _ _ _ H1 H2).
Defined.

(** ** The shape of stdout *)

Lemma search_file_tags w path r t :
  search_file w path = Ok (Some r) → t ∈ todos r → tag_token t.1.2.
Proof.
  rewrite search_file_eq. destruct (open w path) as [f|e]; [|done].
  destruct (decodes f); [|done]. destruct (reads f); [|done].
  intros [= <-]. simpl. destruct t as [[k tag] text].
  intros (_ & _ & line & raw & _ & Ha & _)%collect_elem.
  by destruct Ha as (? & ? & ? & ? & _ & _ & _ & _ & ? & _).
Qed.

Lemma strip_no_LF s : Forall (λ c, dot c = true) s → LF ∉ strip s.
Proof.
  intros Hdot Hin. destruct (strip_spec s) as (a & b & Hs & _).
  rewrite Hs in Hdot. rewrite Forall_forall in Hdot.
  specialize (Hdot LF). rewrite !elem_of_app in Hdot.
  by specialize (Hdot (or_intror (or_introl Hin))).
Qed.

Lemma search_file_text w path r t :
  search_file w path = Ok (Some r) → t ∈ todos r → LF ∉ t.2.
Proof.
  rewrite search_file_eq. destruct (open w path) as [f|e]; [|done].
  destruct (decodes f); [|done]. destruct (reads f); [|done].
  intros [= <-]. simpl. destruct t as [[k tag] text].
  intros (_ & _ & line & raw & _ & Ha & ->)%collect_elem.
  destruct Ha as (ws & tok & gap & rest & _ & _ & _ & _ & _ & ->).
  apply strip_no_LF, take_while_all.
Qed.

Lemma digits_no_LF u : LF ∉ py (DecimalString.NilEmpty.string_of_uint u).
Proof.
  induction u; simpl; [apply not_elem_of_nil|..];
    (apply not_elem_of_cons; split; [done|assumption]).
Qed.

Lemma str_of_int_no_LF n : LF ∉ str_of_int n.
Proof.
  unfold str_of_int, DecimalString.NilZero.string_of_uint.
  destruct (N.to_uint n) eqn:E; try apply digits_no_LF.
  simpl. apply not_elem_of_cons. split; [done|apply not_elem_of_nil].
Qed.

(** A printed line starts with the [@] of the tag and ends with a line
    feed; in between there is a line feed only if the name has one. *)
Lemma annotation_line_shape name t :
  tag_token t.1.2 → LF ∉ t.2 →
  ∃ body, annotation_line name t = AT :: body ++ [LF]
    ∧ (LF ∈ body → LF ∈ name).
Proof.
  destruct t as [[k tag] text]. simpl. intros (up & -> & _ & Hup) Htext.
  exists ((up ++ replicate (7 - length (AT :: up)) SP) ++ [SP] ++ name
          ++ [COLON] ++ ljust 4 (str_of_int k) ++ [SP] ++ text).
  split.
  - unfold annotation_line, ljust. simpl. f_equal.
    repeat (rewrite <- app_assoc; simpl). done.
  - unfold ljust. rewrite !elem_of_app, !elem_of_replicate,
      !list_elem_of_singleton.
    intros [[Hin|[? _]]|[?|[?|[?|[[Hin|[? _]]|[?|?]]]]]]; try done.
    + rewrite Forall_forall in Hup. by specialize (Hup _ Hin).
    + by apply str_of_int_no_LF in Hin.
Qed.

Lemma shown_printable w rs nr : nr ∈ shown w rs → printable w nr.2 = Some nr.1.
Proof.
  induction rs as [|r rs IH]; simpl; [by intros ?%elem_of_nil|].
  destruct (printable w r) eqn:Hr; [|by intros ?%elem_of_nil].
  intros [->|?]%elem_of_cons; [done|by apply IH].
Qed.

Lemma printable_Some w r name :
  printable w r = Some name →
  ∃ rel, Path_relative_to (file r) (home w) = Ok rel ∧ name = Path_str rel.
Proof.
  unfold printable. destruct (Path_relative_to _ _) as [rel|e]; [|done].
  destruct (encodable w _); [|done]. intros [= <-]. by exists rel.
Qed.

(** X10: whatever the run, stdout is a sequence of annotation lines and
    nothing else.  Each is the line of an annotation that [search_file]
    returned for a file below the home directory, under the path of the
    file relative to it; it starts with the [@] of its tag and ends with
    a line feed, and has no line feed in between unless the path has
    one. *)
Theorem stdout_lines (w : World) :
  ∃ items : list (str * todo),
    out (run_program w)
    = concat ((λ nt, annotation_line nt.1 nt.2) <$> items)
    ∧ Forall (λ nt,
        (∃ r rel, search_file w (file r) = Ok (Some r) ∧ nt.2 ∈ todos r
           ∧ Path_relative_to (file r) (home w) = Ok rel
           ∧ nt.1 = Path_str rel)
        ∧ ∃ body, annotation_line nt.1 nt.2 = AT :: body ++ [LF]
            ∧ (LF ∈ body → LF ∈ nt.1)) items.
Proof.
  destruct (main_stdout w) as (rs & Hout & Hrs).
  rewrite run_program_out, Hout, printed_shown.
  assert (Hsh : Forall (λ nr, search_file w (file nr.2) = Ok (Some nr.2)
                              ∧ printable w nr.2 = Some nr.1) (shown w rs)).
  { apply Forall_forall. intros nr Hnr.
    split; [|by apply (shown_printable _ rs)].
    apply shown_sub in Hnr. rewrite Forall_forall in Hrs.
    by destruct (Hrs _ Hnr). }
  clear Hout Hrs. induction Hsh as [|nr sh [Hs Hp] _ (items & Hc & Hl)].
  - exists []. split; [done|constructor].
  - exists (((λ t, (nr.1, t)) <$> todos nr.2) ++ items). split.
    + rewrite fmap_cons, fmap_app, concat_app, <- Hc. simpl. f_equal.
      unfold block. by rewrite <- list_fmap_compose.
    + apply Forall_app. split; [|done].
      apply Forall_forall. intros nt (t & -> & Ht)%list_elem_of_fmap. simpl.
      destruct (printable_Some _ _ _ Hp) as (rel & Hrel & Hname). split.
      * by exists nr.2, rel.
      * apply annotation_line_shape;
          [by eapply search_file_tags|by eapply search_file_text].
Qed.
